(** * challenge2: the NaCl-box secure channel (SecureReader / SecureWriter,
    the public-key handshake of [Dial] and [Serve], and the echo service).

    A shallow embedding of [src/challenge2/main.go].  The collaborators the
    program does not implement itself are interfaces here:
    - the operating system (connections, the listener, [crypto/rand]) is a
      type class [Sys] over an abstract world state, threaded explicitly;
    - [golang.org/x/crypto/nacl/box] is a type class [BoxLib]; what the
      proofs need from it is stated as hypotheses inside a Section.
    Go's run-time panics (slice bounds out of range) are a separate outcome. *)

From Stdlib Require Import ZArith Ascii String Strings.Byte Lia.
From stdpp Require Import base tactics decidable option numbers list strings pretty.

Local Open Scope string_scope.
Local Open Scope list_scope.
Local Open Scope Z_scope.

(** ** Go values *)

Abbreviation bytes := (list Byte.byte).

#[export] Instance byte_eq_dec : EqDecision Byte.byte := Byte.byte_eq_dec.

(** Go's [error] interface.  [io_EOF] is the sentinel [io.EOF]; [Errorf] is
    an error built by [fmt.Errorf] in this program; [Errno] stands for any
    error value produced by the operating system or a library. *)
Inductive error : Type :=
  | io_EOF
  | Errorf (msg : string)
  | Errno (code : nat).

#[export] Instance error_eq_dec : EqDecision error.
Proof. solve_decision. Defined.

(** A call either returns or panics at run time. *)
Inductive outcome (A : Type) : Type :=
  | Returns (a : A)
  | Panics.
Arguments Returns {A} a.
Arguments Panics {A}.

(** [make([]byte, n)]: a zeroed slice whose capacity equals its length. *)
Definition make (n : nat) : bytes := replicate n x00.

(** The builtin [copy(dst, src)], as the new contents of [dst]: the first
    [min (len dst) (len src)] bytes are overwritten. *)
Definition go_copy (dst src : bytes) : bytes :=
  take (length dst) src ++ drop (length src) dst.

(** The slice expression [s[lo:hi]] on a slice whose capacity is its length:
    it panics unless [0 <= lo <= hi <= cap(s)]. *)
Definition go_slice (s : bytes) (lo : nat) (hi : Z) : option bytes :=
  if decide (Z.of_nat lo <= hi <= Z.of_nat (length s))
  then Some (take (Z.to_nat hi - lo) (drop lo s))
  else None.

(** ** Constants of the program *)

Definition KeySize : nat := 32.
Definition NonceSize : nat := 24.

(** ** External collaborators *)

(** [nacl/box]: [box_seal m nonce peersPublicKey privateKey] is the
    authenticated ciphertext that [box.Seal] appends to its [out] argument;
    [box_open] is [box.Open]'s plaintext, [None] when it does not verify;
    [Overhead] is the constant [box.Overhead]. *)
Class BoxLib : Type := {
  Overhead : nat;
  box_seal : bytes -> bytes -> bytes -> bytes -> bytes;
  box_open : bytes -> bytes -> bytes -> bytes -> option bytes
}.

Definition box_Seal `{BoxLib} (out message nonce peersPublicKey privateKey : bytes)
  : bytes :=
  out ++ box_seal message nonce peersPublicKey privateKey.

Definition box_Open `{BoxLib} (out box nonce peersPublicKey privateKey : bytes)
  : option bytes :=
  app out <$> box_open box nonce peersPublicKey privateKey.

(** Handles of connections and listeners. *)
Definition conn := nat.
Definition listener := nat.

(** The world outside the program.  A read is asked for at most [cap] bytes
    and answers with the bytes it stored, the count it reports and its
    error; a write answers with a count and an error.  Nothing is assumed
    about the answers: the count need not match the data. *)
Class Sys (E : Type) : Type := {
  conn_Read : E -> conn -> nat -> bytes * Z * option error * E;
  conn_Write : E -> conn -> bytes -> Z * option error * E;
  conn_Close : E -> conn -> E;
  listener_Accept : E -> listener -> (error + conn) * E;
  net_Dial : E -> string -> (error + conn) * E;
  (* io.ReadFull(rand.Reader, buf) with len(buf) = n *)
  rand_ReadFull : E -> nat -> bytes * option error * E;
  (* box.GenerateKey(rand.Reader): (publicKey, privateKey) or an error *)
  box_GenerateKey : E -> (error + bytes * bytes) * E
}.

(** ** The program *)

Section Program.
Context `{BoxLib} {E : Type} `{Sys E}.

(** [genNonce] *)
Definition genNonce (e : E) : (error + bytes) * E :=
  let nonce := make NonceSize in
  let '(data, err, e1) := rand_ReadFull e (length nonce) in
  let nonce := go_copy nonce data in
  match err with
  | Some err => (inl err, e1)
  | None => (inr nonce, e1)
  end.

(** [type sR struct] *)
Record sR : Type := NewSecureReader {
  sR_r : conn;
  sR_priv : bytes;
  sR_peerPub : bytes
}.

(** [func (sr *sR) Read(p []byte) (int, error)].  The result carries the
    contents of the caller's buffer [p] after the call. *)
Definition sR_Read (sr : sR) (p : bytes) (e : E)
  : outcome (Z * option error * bytes) * E :=
  let bs := make (length p + NonceSize + Overhead) in
  let '(data, n, err, e1) := conn_Read e (sR_r sr) (length bs) in
  let bs := go_copy bs data in
  if decide (err <> None /\ err <> Some io_EOF) then
    (Returns (0, err, p), e1)
  else
    let nonce := go_copy (make NonceSize) (take NonceSize bs) in
    match go_slice bs NonceSize n with
    | None => (Panics, e1)
    | Some box =>
        match box_Open [] box nonce (sR_peerPub sr) (sR_priv sr) with
        | None =>
            (Returns (0, Some (Errorf "failed decrypting message"), p), e1)
        | Some m =>
            (Returns (Z.of_nat (length m), None, go_copy p m), e1)
        end
    end.

(** [type sW struct] *)
Record sW : Type := NewSecureWriter {
  sW_w : conn;
  sW_priv : bytes;
  sW_peerPub : bytes
}.

(** [func (sw *sW) Write(p []byte) (int, error)] *)
Definition sW_Write (sw : sW) (p : bytes) (e : E) : Z * option error * E :=
  match genNonce e with
  | (inl err, e1) => (0, Some err, e1)
  | (inr n, e1) =>
      let out := box_Seal n p n (sW_peerPub sw) (sW_priv sw) in
      conn_Write e1 (sW_w sw) out
  end.

(** [type sRWC struct]: the reader, the writer and the closer all refer to
    the one connection. *)
Record sRWC : Type := Build_sRWC {
  sRWC_Reader : sR;
  sRWC_Writer : sW;
  sRWC_Closer : conn
}.

(** [func Dial(addr string) (io.ReadWriteCloser, error)] *)
Definition Dial (addr : string) (e : E) : option sRWC * option error * E :=
  match box_GenerateKey e with
  | (inl err, e1) => (None, Some err, e1)
  | (inr (pub, priv), e1) =>
      match net_Dial e1 addr with
      | (inl err, e2) => (None, Some err, e2)
      | (inr c, e2) =>
          let '(n, err, e3) := conn_Write e2 c pub in
          match err with
          | Some err => (None, Some err, e3)
          | None =>
              if decide (n <> Z.of_nat KeySize) then
                (None, Some (Errorf "partial write"), e3)
              else
                let peerPub := make KeySize in
                let '(data, n, err, e4) := conn_Read e3 c (length peerPub) in
                let peerPub := go_copy peerPub data in
                match err with
                | Some err => (None, Some err, e4)
                | None =>
                    if decide (n <> Z.of_nat KeySize) then
                      (None, Some (Errorf "partial read"), e4)
                    else
                      (Some (Build_sRWC (NewSecureReader c priv peerPub)
                                        (NewSecureWriter c priv peerPub) c),
                       None, e4)
                end
          end
      end
  end.

(** [bufSize := 1 << 15] *)
Definition bufSize : nat := Z.to_nat (Z.shiftl 1 15).

(** The body of [Serve] after [defer conn.Close()]. *)
Definition Serve_conn (c : conn) (e : E) : outcome (option error) * E :=
  let peerPub := make KeySize in
  let '(data, n, err, e1) := conn_Read e c (length peerPub) in
  let peerPub := go_copy peerPub data in
  match err with
  | Some err => (Returns (Some err), e1)
  | None =>
      if decide (n <> Z.of_nat KeySize) then
        (Returns (Some (Errorf "illegal key size")), e1)
      else
        match box_GenerateKey e1 with
        | (inl err, e2) => (Returns (Some err), e2)
        | (inr (pub, priv), e2) =>
            let '(n, err, e3) := conn_Write e2 c pub in
            match err with
            | Some err => (Returns (Some err), e3)
            | None =>
                if decide (n <> Z.of_nat KeySize) then
                  (Returns (Some (Errorf "partial pub key write")), e3)
                else
                  let r := NewSecureReader c priv peerPub in
                  let w := NewSecureWriter c priv peerPub in
                  let buf := make bufSize in
                  match sR_Read r buf e3 with
                  | (Panics, e4) => (Panics, e4)
                  | (Returns (_, Some err, _), e4) => (Returns (Some err), e4)
                  | (Returns (n, None, buf), e4) =>
                      match go_slice buf 0 n with
                      | None => (Panics, e4)
                      | Some msg =>
                          let '(_, err, e5) := sW_Write w msg e4 in
                          match err with
                          | Some err => (Returns (Some err), e5)
                          | None => (Returns None, e5)
                          end
                      end
                  end
            end
        end
  end.

(** [func Serve(l net.Listener) error].  The deferred [conn.Close()] runs
    however the body ends. *)
Definition Serve (l : listener) (e : E) : outcome (option error) * E :=
  match listener_Accept e l with
  | (inl err, e1) => (Returns (Some err), e1)
  | (inr c, e1) =>
      let '(res, e2) := Serve_conn c e1 in
      (res, conn_Close e2 c)
  end.

End Program.

(** ** Observing the calls the program makes

    [Logged] wraps any world and records each call made to it, in order.
    The program is parametric in the world, so what it does in a logged
    world is what it does in the world underneath. *)

Inductive event : Type :=
  | EvAccept (l : listener)
  | EvDial (addr : string)
  | EvRead (c : conn) (cap : nat)
  | EvWrite (c : conn) (data : bytes)
  | EvClose (c : conn)
  | EvRandRead (n : nat)
  | EvGenerateKey.

Definition Logged (E : Type) : Type := E * list event.

#[export] Instance Logged_Sys {E : Type} `{Sys E} : Sys (Logged E) := {
  conn_Read el c cap :=
    let r := conn_Read el.1 c cap in (r.1, (r.2, el.2 ++ [EvRead c cap]));
  conn_Write el c data :=
    let r := conn_Write el.1 c data in (r.1, (r.2, el.2 ++ [EvWrite c data]));
  conn_Close el c := (conn_Close el.1 c, el.2 ++ [EvClose c]);
  listener_Accept el l :=
    let r := listener_Accept el.1 l in (r.1, (r.2, el.2 ++ [EvAccept l]));
  net_Dial el addr :=
    let r := net_Dial el.1 addr in (r.1, (r.2, el.2 ++ [EvDial addr]));
  rand_ReadFull el n :=
    let r := rand_ReadFull el.1 n in (r.1, (r.2, el.2 ++ [EvRandRead n]));
  box_GenerateKey el :=
    let r := box_GenerateKey el.1 in (r.1, (r.2, el.2 ++ [EvGenerateKey]))
}.

(** ** The spec's error classes, as the program's error values *)

(** [AuthenticationFailure]: the error [sR.Read] builds when [box.Open]
    does not verify. *)
Definition AuthenticationFailure : error := Errorf "failed decrypting message".

(** [HandshakeIncomplete]: the errors [Dial] and [Serve] build when a key
    exchange transfers a count other than [KeySize]. *)
Definition HandshakeIncomplete (err : error) : Prop :=
  err = Errorf "partial write" \/ err = Errorf "partial read" \/
  err = Errorf "illegal key size" \/ err = Errorf "partial pub key write".


(** The error a key-exchange step ends with when its count is not
    [KeySize]: the transport's own error when it reported one, otherwise
    the error the program builds for that step. *)
Definition handshake_error (transport : option error) (msg : string) : error :=
  match transport with
  | Some err => err
  | None => Errorf msg
  end.

(** ** Package [drum]: the decoder of [.splice] files

    The file system is a function from a path to what [os.Open] and
    [ioutil.ReadAll] give for it.  A [bytes.Buffer] is the list of its
    unread bytes.  [int] is taken to be 64 bits wide.  A [float32] is kept
    as the 32 bits [binary.Read] decodes it from. *)

(** [io.ErrUnexpectedEOF]: an error value of the library, other than
    [io.EOF]. *)
Definition io_ErrUnexpectedEOF : error := Errno 0.

(** [os.Open] fails, or [ioutil.ReadAll] fails, or the file's content. *)
Definition FileSys : Type := string -> error + (error + bytes).

(** [bytes.Buffer.Next(n)]: the next [n] bytes, or all that is left
    when there are fewer, and the rest of the buffer; [None] is the panic
    of the slice expression for a negative [n]. *)
Definition Buffer_Next (buf : bytes) (n : Z) : option (bytes * bytes) :=
  let m := Z.of_nat (length buf) in
  let n := if decide (n > m) then m else n in
  if decide (n < 0) then None
  else Some (take (Z.to_nat n) buf, drop (Z.to_nat n) buf).

(** [io.ReadFull(buf, bs)] with [len(bs) = k], as [binary.Read] calls it:
    [io.EOF] when nothing is left, [io.ErrUnexpectedEOF] (with the buffer
    drained) when fewer than [k] bytes are left. *)
Definition Buffer_ReadFull (buf : bytes) (k : nat) : (error + bytes) * bytes :=
  if decide (k = 0%nat) then (inr [], buf)
  else if decide (length buf = 0%nat) then (inl io_EOF, buf)
  else if decide (length buf < k)%nat then (inl io_ErrUnexpectedEOF, [])
  else (inr (take k buf), drop k buf).

(** [binary.BigEndian.Uint64] and, on the reversed bytes,
    [binary.LittleEndian.Uint32]. *)
Definition uint_be (bs : bytes) : Z :=
  fold_left (fun acc b => acc * 256 + Z.of_N (Byte.to_N b)) bs 0.

Definition uint_le (bs : bytes) : Z := uint_be (rev bs).

(** The conversion of an unsigned [w]-bit value to the signed type of the
    same width: [int64(x)], [int32(x)]. *)
Definition to_int (w : Z) (x : Z) : Z :=
  if decide (x < 2 ^ (w - 1)) then x else x - 2 ^ w.

(** [strings.TrimRight(s, "\x00")] on the bytes of [s]. *)
Fixpoint TrimRight_NUL (s : bytes) : bytes :=
  match s with
  | [] => []
  | b :: rest =>
      match TrimRight_NUL rest with
      | [] => if decide (b = x00) then [] else [b]
      | rest' => b :: rest'
      end
  end.

(** [type Track struct] *)
Record Track : Type := Build_Track {
  Track_id : Z;
  Track_name : string;
  Track_steps : bytes
}.

(** [type Pattern struct]; [Pattern_tempo] is the bit pattern of the
    [float32]. *)
Record Pattern : Type := Build_Pattern {
  Pattern_version : string;
  Pattern_tempo : Z;
  Pattern_tracks : list Track
}.

(** [func addTrack] of [Pattern] *)
Definition addTrack (p : Pattern) (t : Track) : Pattern :=
  Build_Pattern (Pattern_version p) (Pattern_tempo p) (Pattern_tracks p ++ [t]).

(** The loop [for buf.Len() > 0] of [DecodeFile].  [fuel] bounds the
    number of iterations; [None] means it ran out. *)
Fixpoint DecodeFile_tracks (fuel : nat) (buf : bytes) (p : Pattern)
  : option (outcome (option Pattern * option error)) :=
  if decide (length buf = 0%nat) then Some (Returns (Some p, None))
  else
    match fuel with
    | O => None
    | S fuel =>
        match Buffer_ReadFull buf 4 with
        | (inl err, _) => Some (Returns (Some p, Some err))
        | (inr idb, buf) =>
            let id := to_int 32 (uint_le idb) in
            match buf with
            | [] => Some (Returns (Some p, Some io_EOF))
            | c :: buf =>
                match Buffer_Next buf (Z.of_N (Byte.to_N c)) with
                | None => Some Panics
                | Some (nameb, buf) =>
                    let name := string_of_list_byte nameb in
                    match Buffer_Next buf 16 with
                    | None => Some Panics
                    | Some (stepsb, buf) =>
                        DecodeFile_tracks fuel buf
                          (addTrack p (Build_Track id name stepsb))
                    end
                end
            end
        end
    end.

(** [func DecodeFile(path string)], from the content of the file on. *)
Definition DecodeFile_content (content : bytes)
  : option (outcome (option Pattern * option error)) :=
  match Buffer_Next content 6 with
  | None => Some Panics
  | Some (prtclb, buf) =>
      let prtcl := string_of_list_byte prtclb in
      if decide ("SPLICE" <> prtcl) then
        Some (Returns (None, Some (Errorf ("want SPLICE, got " +:+ prtcl))))
      else
        match Buffer_ReadFull buf 8 with
        | (inl err, _) => Some (Returns (None, Some err))
        | (inr lengthb, buf) =>
            let length_ := to_int 64 (uint_be lengthb) in
            match Buffer_Next buf length_ with
            | None => Some Panics
            | Some (buf, _) =>
                match Buffer_Next buf 32 with
                | None => Some Panics
                | Some (versionb, buf) =>
                    let version :=
                      string_of_list_byte (TrimRight_NUL versionb) in
                    match Buffer_ReadFull buf 4 with
                    | (inl err, _) => Some (Returns (None, Some err))
                    | (inr tempob, buf) =>
                        let tempo := uint_le tempob in
                        DecodeFile_tracks (S (length buf)) buf
                          (Build_Pattern version tempo [])
                    end
                end
            end
        end
  end.

(** [func DecodeFile], with [readAll] inlined. *)
Definition DecodeFile (fs : FileSys) (path : string)
  : option (outcome (option Pattern * option error)) :=
  match fs path with
  | inl err => Some (Returns (None, Some err))
  | inr (inl err) => Some (Returns (None, Some err))
  | inr (inr content) => DecodeFile_content content
  end.

(** The rendering of the steps in [Track.String]: a bar before every
    fourth step, [-] for 0 and [x] for 1; [None] is the panic on any other
    value. *)
Fixpoint Track_String_steps (i : nat) (steps : bytes) : option string :=
  match steps with
  | [] => Some ""
  | s :: rest =>
      let bar := if decide (i mod 4 = 0)%nat then "|" else "" in
      match (if decide (s = x00) then Some "-"
             else if decide (s = x01) then Some "x" else None),
            Track_String_steps (S i) rest with
      | Some mark, Some tail => Some (bar +:+ mark +:+ tail)
      | _, _ => None
      end
  end.

(** [func String] of [Track] *)
Definition Track_String (t : Track) : outcome string :=
  match Track_String_steps 0 (Track_steps t) with
  | None => Panics
  | Some marks =>
      Returns ("(" +:+ pretty (Track_id t) +:+ ") " +:+ Track_name t
               +:+ String "009"%char "" +:+ marks +:+ "|")
  end.

(** The bytes of one track as [DecodeFile] reads them: four bytes of id,
    one byte of name length, the name, the steps. *)
Record RawTrack : Type := Build_RawTrack {
  raw_id : bytes;
  raw_len : Byte.byte;
  raw_name : bytes;
  raw_steps : bytes
}.

Definition track_layout (t : RawTrack) : bytes :=
  raw_id t ++ raw_len t :: raw_name t ++ raw_steps t.

(** A track laid out in full: the length byte counts the name, and there
    are sixteen steps. *)
Definition track_whole (t : RawTrack) : Prop :=
  length (raw_id t) = 4%nat /\
  Byte.to_N (raw_len t) = N.of_nat (length (raw_name t)) /\
  length (raw_steps t) = 16%nat.

(** The [Track] that [DecodeFile] builds from these bytes. *)
Definition track_value (t : RawTrack) : Track :=
  Build_Track (to_int 32 (uint_le (raw_id t)))
              (string_of_list_byte (raw_name t)) (raw_steps t).

(** The six bytes every file starts with. *)
Definition SPLICE : bytes := list_byte_of_string "SPLICE".

(** What holds of every track [DecodeFile] builds: the id is an [int32],
    the name has at most 255 bytes, there are at most sixteen steps. *)
Definition track_bounded (t : Track) : Prop :=
  - 2 ^ 31 <= Track_id t < 2 ^ 31 /\
  (length (list_byte_of_string (Track_name t)) <= 255)%nat /\
  (length (Track_steps t) <= 16)%nat.

(** A step [Track.String] can render. *)
Definition step_valid (s : Byte.byte) : Prop := s = x00 \/ s = x01.

(** The character of a step, and the rendering of groups of steps: a bar,
    then the characters of the group. *)
Definition step_char (s : Byte.byte) : ascii :=
  if decide (s = x01) then "x"%char else "-"%char.

Definition render_group (g : bytes) (tail : string) : string :=
  String "|"%char (foldr (fun s acc => String (step_char s) acc) tail g).

Definition render_groups (groups : list bytes) : string :=
  foldr render_group "" groups.

(** Sample files. *)
Definition kick_steps : bytes :=
  [x01; x00; x00; x00; x01; x00; x00; x00;
   x01; x00; x00; x00; x01; x00; x00; x00].

Definition kick_raw : RawTrack :=
  Build_RawTrack [x00; x00; x00; x00] x04 (list_byte_of_string "kick")
                 kick_steps.

Definition sample_version : bytes :=
  list_byte_of_string "0.808-alpha" ++ replicate 21 x00.

Definition sample_tempo : bytes := [x00; x00; xf0; x42].

Definition be_length (b : Byte.byte) : bytes :=
  [x00; x00; x00; x00; x00; x00; x00; b].

(** One whole track, and two bytes behind the declared length. *)
Definition kick_file : bytes :=
  SPLICE ++ be_length x3d
  ++ (sample_version ++ sample_tempo ++ flat_map track_layout [kick_raw])
  ++ [x01; x02].

(** One whole track and a second one cut after two bytes of its name. *)
Definition cut_file : bytes :=
  SPLICE ++ be_length x44
  ++ (sample_version ++ sample_tempo ++ flat_map track_layout [kick_raw]
      ++ [x01; x00; x00; x00] ++ x05 :: list_byte_of_string "sn")
  ++ [].

(** One whole track and two stray bytes inside the declared length. *)
Definition stray_file : bytes :=
  SPLICE ++ be_length x3f
  ++ (sample_version ++ sample_tempo ++ flat_map track_layout [kick_raw]
      ++ [x01; x02])
  ++ [].

(** A length field with the sign bit set. *)
Definition negative_file : bytes :=
  SPLICE ++ (xff :: [x00; x00; x00; x00; x00; x00; x3d]) ++ [x01].

Definition sample_fs : FileSys := fun path =>
  if decide (path = "kick.splice") then inr (inr kick_file)
  else if decide (path = "cut.splice") then inr (inr cut_file)
  else if decide (path = "stray.splice") then inr (inr stray_file)
  else if decide (path = "negative.splice") then inr (inr negative_file)
  else if decide (path = "notes.txt") then
    inr (inr (list_byte_of_string "SPLIC"))
  else inl (Errno 2).

(** ** Test doubles

    A scripted in-memory world and a toy box, used to run the program on
    concrete inputs. *)

(** [mk_reads] and [mk_writes] script the answers of the next reads and
    writes; once a script is used up the connection is a loopback: a write
    queues its data on [mk_wire] and a read takes from the oldest chunk. *)
Record Mock : Type := Build_Mock {
  mk_reads : list (bytes * Z * option error);
  mk_writes : list (Z * option error);
  mk_wire : list bytes;
  mk_rand : list (bytes * option error);
  mk_keys : list (error + bytes * bytes);
  mk_accepts : list (error + conn)
}.

Definition mock_key : bytes := replicate KeySize x07.

Definition mock_Read (m : Mock) (c : conn) (cap : nat)
  : bytes * Z * option error * Mock :=
  match mk_reads m with
  | a :: rest =>
      (a, Build_Mock rest (mk_writes m) (mk_wire m) (mk_rand m) (mk_keys m)
                     (mk_accepts m))
  | [] =>
      match mk_wire m with
      | f :: fs =>
          let wire := if decide (length f <= cap)%nat then fs
                      else drop cap f :: fs in
          (take cap f, Z.of_nat (length (take cap f)), None,
           Build_Mock [] (mk_writes m) wire (mk_rand m) (mk_keys m)
                      (mk_accepts m))
      | [] => ([], 0, Some io_EOF, m)
      end
  end.

Definition mock_Write (m : Mock) (c : conn) (data : bytes)
  : Z * option error * Mock :=
  match mk_writes m with
  | a :: rest =>
      (a, Build_Mock (mk_reads m) rest (mk_wire m) (mk_rand m) (mk_keys m)
                     (mk_accepts m))
  | [] =>
      (Z.of_nat (length data), None,
       Build_Mock (mk_reads m) [] (mk_wire m ++ [data]) (mk_rand m)
                  (mk_keys m) (mk_accepts m))
  end.

Definition mock_ReadFull (m : Mock) (n : nat) : bytes * option error * Mock :=
  match mk_rand m with
  | a :: rest =>
      (a, Build_Mock (mk_reads m) (mk_writes m) (mk_wire m) rest (mk_keys m)
                     (mk_accepts m))
  | [] => (replicate n x2a, None, m)
  end.

Definition mock_GenerateKey (m : Mock) : (error + bytes * bytes) * Mock :=
  match mk_keys m with
  | a :: rest =>
      (a, Build_Mock (mk_reads m) (mk_writes m) (mk_wire m) (mk_rand m) rest
                     (mk_accepts m))
  | [] => (inr (mock_key, mock_key), m)
  end.

Definition mock_Accept (m : Mock) (l : listener) : (error + conn) * Mock :=
  match mk_accepts m with
  | a :: rest =>
      (a, Build_Mock (mk_reads m) (mk_writes m) (mk_wire m) (mk_rand m)
                     (mk_keys m) rest)
  | [] => (inr 0%nat, m)
  end.

#[export] Instance Mock_Sys : Sys Mock := {
  conn_Read := mock_Read;
  conn_Write := mock_Write;
  conn_Close m c := m;
  listener_Accept := mock_Accept;
  net_Dial m addr := (inr 0%nat, m);
  rand_ReadFull := mock_ReadFull;
  box_GenerateKey := mock_GenerateKey
}.

(** An idle loopback world with nothing scripted. *)
Definition mock0 : Mock := Build_Mock [] [] [] [] [] [].

(** The toy box: the message in clear behind a 16-byte tag that depends on
    the nonce and, symmetrically, on the two keys.  In the toy scheme a
    public key is valid for a private key when they are equal. *)
Definition toy_sum (l : bytes) : N :=
  foldr (fun b acc => (Byte.to_N b + acc)%N) 0%N l.

Definition toy_tag (nonce pk sk : bytes) : bytes :=
  replicate 16
    (default x00
       (Byte.of_N ((toy_sum pk + toy_sum sk + toy_sum nonce) mod 256)%N)).

Definition toy_seal (m nonce pk sk : bytes) : bytes := toy_tag nonce pk sk ++ m.

Definition toy_open (c nonce pk sk : bytes) : option bytes :=
  if decide (take 16 c = toy_tag nonce pk sk /\ (16 <= length c)%nat)
  then Some (drop 16 c) else None.

Definition ToyBox : BoxLib :=
  {| Overhead := 16; box_seal := toy_seal; box_open := toy_open |}.

Definition toy_key_pair (pub priv : bytes) : Prop := pub = priv.

(** Inputs of the concrete runs. *)

Definition keyA : bytes := mock_key.
Definition keyB : bytes := replicate KeySize x0b.
Definition hello : bytes := [x68; x65; x6c; x6c; x6f].
Definition nonce0 : bytes := replicate NonceSize x2a.

(** The loopback world after the writer of side A has sent [hello]. *)
Definition sent_hello : Mock :=
  (sW_Write (H:=ToyBox) (NewSecureWriter 0%nat keyA keyB) hello mock0).2.

(** A world whose next read delivers 40 bytes that no key authenticates. *)
Definition garbage : Mock :=
  Build_Mock [(replicate 40 x01, 40, None)] [] [] [] [] [].

(** A world whose next write is cut short by the transport. *)
Definition short_write : Mock :=
  Build_Mock [] [(10, Some (Errno 32))] [] [] [] [].

(** A peer that closes the connection before sending its key: the next
    read answers end of stream with zero bytes. *)
Definition peer_closed : Mock :=
  Build_Mock [([], 0, Some io_EOF)] [] [] [] [] [].

(** A peer that delivers 16 of the 32 bytes of its key, without an error. *)
Definition half_key : Mock :=
  Build_Mock [(replicate 16 x01, 16, None)] [] [] [] [] [].

(** The world of one echo: side B's public key and one frame sealed by
    side B for the server are waiting on the connection. *)
Definition echo_world : Mock :=
  Build_Mock [] [] [keyB; nonce0 ++ toy_seal hello nonce0 mock_key keyB]
             [] [] [].

(** ** The command: [func main()]

    [main] also listens and closes the listener, which [Sys] does not
    offer; [SysMain] adds the two calls. *)

Class SysMain (E : Type) : Type := {
  (* net.Listen("tcp", addr) *)
  net_Listen : E -> string -> (error + listener) * E;
  (* l.Close() *)
  listener_Close : E -> listener -> E
}.

(** What [log.Fatal] and [log.Fatalf] are given to print. *)
Inductive fatal : Type :=
  | FatalError (v : option error)
  | FatalMessage (msg : string).

(** How the process ends: [main] returns after printing [stdout] (exit
    status 0); [log.Fatal] exits with status 1 without running deferred
    calls; a panic unwinds, running the deferred calls, and crashes. *)
Inductive ending : Type :=
  | ExitOK (stdout : bytes)
  | LogFatal (what : fatal)
  | Crash.

Section Command.
Context `{BoxLib} {E : Type} `{Sys E} `{SysMain E}.

(** [func main()], after [flag.Parse()] has returned: [port] is the value
    of the flag [-l] and [args] is [os.Args]. *)
Definition main (port : Z) (args : list string) (e : E) : ending * E :=
  if decide (port <> 0) then
    match net_Listen e (":" +:+ pretty port) with
    | (inl err, e1) => (LogFatal (FatalError (Some err)), e1)
    | (inr l, e1) =>
        match Serve l e1 with
        | (Panics, e2) => (Crash, listener_Close e2 l)
        | (Returns v, e2) => (LogFatal (FatalError v), e2)
        end
    end
  else if decide (length args <> 3%nat) then
    match args with
    | [] => (Crash, e)
    | prog :: _ =>
        (LogFatal (FatalMessage ("Usage: " +:+ prog +:+ " <port> <message>")), e)
    end
  else
    match args with
    | [_; arg1; arg2] =>
        match Dial ("localhost:" +:+ arg1) e with
        | (_, Some err, e1) => (LogFatal (FatalError (Some err)), e1)
        | (None, None, e1) => (Crash, e1)
        | (Some conn, None, e1) =>
            let '(_, err, e2) :=
              sW_Write (sRWC_Writer conn) (list_byte_of_string arg2) e1 in
            match err with
            | Some err => (LogFatal (FatalError (Some err)), e2)
            | None =>
                let buf := make (length (list_byte_of_string arg2)) in
                match sR_Read (sRWC_Reader conn) buf e2 with
                | (Panics, e3) => (Crash, e3)
                | (Returns (n, err, buf), e3) =>
                    if decide (err <> None /\ err <> Some io_EOF) then
                      (LogFatal (FatalError err), e3)
                    else
                      match go_slice buf 0 n with
                      | None => (Crash, e3)
                      | Some out => (ExitOK (out ++ [x0a]), e3)
                      end
                end
            end
        end
    | _ => (Crash, e)
    end.

End Command.

#[export] Instance Mock_SysMain : SysMain Mock := {
  net_Listen m addr := (inr 1%nat, m);
  listener_Close m l := m
}.

(** A world whose random source fails. *)
Definition no_entropy : Mock :=
  Build_Mock [] [] [] [([], Some (Errno 5))] [] [].

(** A world whose random source delivers two different 24-byte draws. *)
Definition two_draws : Mock :=
  Build_Mock [] [] []
             [(replicate NonceSize x01, None); (replicate NonceSize x02, None)]
             [] [].

(** The client's world for one echo: the server, with key [keyB], answers
    the handshake with its public key and the message with a frame that
    seals [hello] for the client. *)
Definition client_world : Mock :=
  Build_Mock [(keyB, 32, None);
              (nonce0 ++ toy_seal hello nonce0 mock_key keyB, 45, None)]
             [] [] [] [] [].

(** A world whose listener fails to accept. *)
Definition accept_fails : Mock :=
  Build_Mock [] [] [] [] [] [inl (Errno 24)].

(** A world whose next write is cut short by a sink that reports no
    error. *)
Definition silent_short : Mock :=
  Build_Mock [] [(10, None)] [] [] [] [].

(** A peer that sends its key and then closes the connection. *)
Definition peer_leaves : Mock :=
  Build_Mock [(keyB, 32, None); ([], 0, Some io_EOF)] [] [] [] [] [].

(** * Proofs *)

(** ** Slices *)

Lemma length_make n : length (make n) = n.
Proof. apply length_replicate. Qed.

Lemma length_go_copy dst src : length (go_copy dst src) = length dst.
Proof.
  unfold go_copy. rewrite length_app, length_take, length_drop. lia.
Qed.

Lemma go_copy_le dst src :
  (length src <= length dst)%nat ->
  go_copy dst src = src ++ drop (length src) dst.
Proof. intros Hle. unfold go_copy. by rewrite take_ge. Qed.

Lemma go_copy_exact dst src :
  length src = length dst -> go_copy dst src = src.
Proof.
  intros Heq. rewrite go_copy_le by lia.
  rewrite drop_ge by lia. apply app_nil_r.
Qed.

Lemma take_go_copy dst src :
  (length src <= length dst)%nat -> take (length src) (go_copy dst src) = src.
Proof. intros Hle. rewrite go_copy_le by done. apply take_app_length. Qed.

Lemma go_slice_go_copy dst src :
  (length src <= length dst)%nat ->
  go_slice (go_copy dst src) 0 (Z.of_nat (length src)) = Some src.
Proof.
  intros Hle. unfold go_slice.
  rewrite decide_True by (rewrite length_go_copy; lia).
  rewrite drop_0, Nat2Z.id, Nat.sub_0_r. f_equal. now apply take_go_copy.
Qed.

Lemma go_slice_Some s lo hi b :
  go_slice s lo hi = Some b ->
  Z.of_nat lo <= hi <= Z.of_nat (length s) /\
  b = take (Z.to_nat hi - lo) (drop lo s).
Proof. unfold go_slice. destruct (decide _); [intros [= <-]; done | done]. Qed.

Lemma go_slice_in_range s lo hi :
  Z.of_nat lo <= hi <= Z.of_nat (length s) ->
  go_slice s lo hi = Some (take (Z.to_nat hi - lo) (drop lo s)).
Proof. intros Hr. unfold go_slice. now rewrite decide_True. Qed.

Lemma go_slice_out_of_range s lo hi :
  hi < Z.of_nat lo \/ Z.of_nat (length s) < hi -> go_slice s lo hi = None.
Proof. intros Hr. unfold go_slice. rewrite decide_False; [done | lia]. Qed.

(** ** The toy box honours what the proofs ask of [nacl/box] *)

Lemma toy_tag_length nonce pk sk : length (toy_tag nonce pk sk) = 16%nat.
Proof. apply length_replicate. Qed.

Lemma toy_tag_sym nonce pk sk : toy_tag nonce pk sk = toy_tag nonce sk pk.
Proof. unfold toy_tag. now rewrite (N.add_comm (toy_sum pk)). Qed.

Lemma toy_open_seal pubA privA pubB privB m nonce :
  toy_key_pair pubA privA -> toy_key_pair pubB privB ->
  toy_open (toy_seal m nonce pubB privA) nonce pubA privB = Some m.
Proof.
  unfold toy_key_pair, toy_open, toy_seal. intros -> ->.
  rewrite (toy_tag_sym nonce privA privB).
  rewrite decide_True; [reflexivity|].
  split; [reflexivity|].
  rewrite length_app, toy_tag_length. lia.
Qed.

Lemma toy_seal_length m nonce pk sk :
  length (toy_seal m nonce pk sk) = (length m + 16)%nat.
Proof. unfold toy_seal. rewrite length_app, toy_tag_length. lia. Qed.

Lemma toy_open_length c nonce pk sk m :
  toy_open c nonce pk sk = Some m -> length c = (length m + 16)%nat.
Proof.
  unfold toy_open. case_decide as Hd; [|done].
  intros [= <-]. rewrite length_drop. lia.
Qed.

(** ** The program in a logged world *)

Section Facts.
Context `{BoxLib} {E : Type} `{Sys E}.

Lemma genNonce_length e nonce e1 :
  genNonce e = (inr nonce, e1) -> length nonce = NonceSize.
Proof.
  unfold genNonce. destruct (rand_ReadFull e _) as [[data err] e2].
  destruct err; intros [= <- <-]. now rewrite length_go_copy, length_make.
Qed.

Lemma genNonce_logged e log :
  genNonce (E:=Logged E) (e, log) =
  ((genNonce e).1, ((genNonce e).2, log ++ [EvRandRead NonceSize])).
Proof.
  unfold genNonce. cbn.
  destruct (rand_ReadFull e _) as [[data err] e2]. now destruct err.
Qed.

Lemma sW_Write_logged sw p e log :
  sW_Write (E:=Logged E) sw p (e, log) =
  ((sW_Write sw p e).1,
   ((sW_Write sw p e).2,
    log ++ EvRandRead NonceSize ::
      match (genNonce e).1 with
      | inl _ => []
      | inr n => [EvWrite (sW_w sw) (box_Seal n p n (sW_peerPub sw) (sW_priv sw))]
      end)).
Proof.
  unfold sW_Write. rewrite genNonce_logged.
  destruct (genNonce e) as [[err|n] e1]; cbn; [done|].
  destruct (conn_Write e1 _ _) as [[k werr] e2]. cbn.
  now rewrite <- app_assoc.
Qed.

Lemma sR_Read_logged sr p e log :
  sR_Read (E:=Logged E) sr p (e, log) =
  ((sR_Read sr p e).1,
   ((sR_Read sr p e).2,
    log ++ [EvRead (sR_r sr) (length p + NonceSize + Overhead)])).
Proof.
  unfold sR_Read. cbn -[make go_copy go_slice]. rewrite !length_make.
  destruct (conn_Read e _ _) as [[[data n] err] e1]. cbn -[make go_copy go_slice].
  destruct (decide _); [done|].
  destruct (go_slice _ _ _); [|done].
  now destruct (box_Open _ _ _ _ _).
Qed.

(** The staging buffer always holds a whole nonce. *)
Lemma staged_nonce (p data : bytes) :
  let bs := go_copy (make (length p + NonceSize + Overhead)) data in
  go_copy (make NonceSize) (take NonceSize bs) = take NonceSize bs.
Proof.
  intros bs. apply go_copy_exact.
  rewrite length_take, length_make. unfold bs.
  rewrite length_go_copy, length_make. lia.
Qed.

(** What [sR.Read] does once the underlying read has answered. *)
Lemma sR_Read_unfold sr p e data n err e1 :
  conn_Read e (sR_r sr) (length p + NonceSize + Overhead) = (data, n, err, e1) ->
  let bs := go_copy (make (length p + NonceSize + Overhead)) data in
  sR_Read sr p e =
  if decide (err <> None /\ err <> Some io_EOF) then (Returns (0, err, p), e1)
  else match go_slice bs NonceSize n with
       | None => (Panics, e1)
       | Some box =>
           match box_open box (take NonceSize bs) (sR_peerPub sr) (sR_priv sr) with
           | None => (Returns (0, Some AuthenticationFailure, p), e1)
           | Some m => (Returns (Z.of_nat (length m), None, go_copy p m), e1)
           end
       end.
Proof.
  intros Hrd bs. unfold sR_Read. rewrite length_make, Hrd.
  pose proof (staged_nonce p data) as Hnonce. cbv zeta in Hnonce.
  rewrite Hnonce. fold bs.
  destruct (decide _); [done|].
  destruct (go_slice bs NonceSize n) as [box|]; [|done].
  unfold box_Open.
  destruct (box_open _ _ _ _) as [m|]; reflexivity.
Qed.

End Facts.

(** ** SecureReader and SecureWriter *)

Section Channel.
Context `{BoxLib} {E : Type} `{Sys E}.

(** What the proofs ask of [nacl/box].  [key_pair pub priv]: [pub] is the
    public key of the private key [priv]. *)
Variable key_pair : bytes -> bytes -> Prop.

Hypothesis box_open_seal :
  forall pubA privA pubB privB m nonce,
    key_pair pubA privA -> key_pair pubB privB ->
    box_open (box_seal m nonce pubB privA) nonce pubA privB = Some m.

Hypothesis box_seal_length :
  forall m nonce pk sk,
    length (box_seal m nonce pk sk) = (length m + Overhead)%nat.

Hypothesis box_open_length :
  forall c nonce pk sk m,
    box_open c nonce pk sk = Some m -> length c = (length m + Overhead)%nat.

(** A read that returns without an error delivered a plaintext that
    [box.Open] verified, and that plaintext fits the caller's buffer. *)
Lemma sR_Read_success sr p e k p' e' :
  sR_Read sr p e = (Returns (k, None, p'), e') ->
  exists data n err box m,
    conn_Read e (sR_r sr) (length p + NonceSize + Overhead) = (data, n, err, e') /\
    let bs := go_copy (make (length p + NonceSize + Overhead)) data in
    go_slice bs NonceSize n = Some box /\
    box_open box (take NonceSize bs) (sR_peerPub sr) (sR_priv sr) = Some m /\
    k = Z.of_nat (length m) /\ p' = go_copy p m /\
    (length m <= length p)%nat.
Proof.
  destruct (conn_Read e (sR_r sr) (length p + NonceSize + Overhead))
    as [[[data n] err] e1] eqn:Hrd.
  rewrite (sR_Read_unfold _ _ _ _ _ _ _ Hrd). cbv zeta.
  destruct (decide _) as [[Hne _]|_]; [intros [= <- -> <- <-]; done|].
  destruct (go_slice _ _ _) as [box|] eqn:Hsl; [|done].
  destruct (box_open _ _ _ _) as [m|] eqn:Hopen; [|done].
  intros [= <- <- <-]. exists data, n, err, box, m.
  repeat split; try done.
  apply go_slice_Some in Hsl as [Hrange ->].
  apply box_open_length in Hopen.
  rewrite length_take, length_drop, length_go_copy, length_make in Hopen.
  unfold NonceSize in *. lia.
Qed.

(** C10.  Whatever the underlying source answers, a call of [sR.Read] that
    returns reports a count between 0 and the length of the caller's
    buffer (and leaves that buffer's length as it was). *)
Theorem sR_Read_count_le sr p e k err p' e' :
  sR_Read sr p e = (Returns (k, err, p'), e') ->
  0 <= k <= Z.of_nat (length p) /\ length p' = length p.
Proof.
  destruct err as [x|].
  - destruct (conn_Read e (sR_r sr) (length p + NonceSize + Overhead))
      as [[[data n] rerr] e1] eqn:Hrd.
    rewrite (sR_Read_unfold _ _ _ _ _ _ _ Hrd). cbv zeta.
    destruct (decide _); [intros [= <- _ <- _]; lia|].
    destruct (go_slice _ _ _); [|done].
    destruct (box_open _ _ _ _); [done|].
    intros [= <- _ <- _]. lia.
  - intros Hok. apply sR_Read_success in Hok
      as (data & n & rerr & box & m & _ & _ & _ & -> & -> & Hle).
    rewrite length_go_copy. lia.
Qed.

(** C3.  When the underlying read went through (no error, or end of
    stream), the ciphertext slice is in range and [box.Open] does not
    verify it, [sR.Read] returns count 0 with the authentication-failure
    error and the caller's buffer as it was. *)
Theorem sR_Read_auth_failure sr p e data n err e1 box :
  conn_Read e (sR_r sr) (length p + NonceSize + Overhead) = (data, n, err, e1) ->
  err = None \/ err = Some io_EOF ->
  let bs := go_copy (make (length p + NonceSize + Overhead)) data in
  go_slice bs NonceSize n = Some box ->
  box_open box (take NonceSize bs) (sR_peerPub sr) (sR_priv sr) = None ->
  sR_Read sr p e = (Returns (0, Some AuthenticationFailure, p), e1).
Proof.
  intros Hrd Herr bs Hsl Hopen.
  rewrite (sR_Read_unfold _ _ _ _ _ _ _ Hrd). cbv zeta. fold bs.
  rewrite decide_False by (intros [? ?]; destruct Herr; done).
  now rewrite Hsl, Hopen.
Qed.

(** C2 (the code at the failing input).  When the underlying read answers
    end of stream with zero bytes, [sR.Read] panics: the slice expression
    [bs[NonceSize:n]] is out of range. *)
Theorem sR_Read_eof_panics sr p e data e1 :
  conn_Read e (sR_r sr) (length p + NonceSize + Overhead)
    = (data, 0, Some io_EOF, e1) ->
  sR_Read sr p e = (Panics, e1).
Proof.
  intros Hrd. rewrite (sR_Read_unfold _ _ _ _ _ _ _ Hrd). cbv zeta.
  rewrite decide_False by (intros [_ Hne]; done).
  rewrite go_slice_out_of_range; [done|]. unfold NonceSize. lia.
Qed.

(** C7.  Each call of [sR.Read] makes exactly one read on the underlying
    source, with a buffer of [len(p) + NonceSize + Overhead] bytes; and
    when that read went through with a count [n] of at least [NonceSize]
    (and within the buffer), the first [NonceSize] bytes read are the nonce
    and the bytes from [NonceSize] up to [n] are the ciphertext handed to
    [box.Open]. *)
Theorem sR_Read_single_read sr p e log :
  (sR_Read (E:=Logged E) sr p (e, log)).2.2 =
    log ++ [EvRead (sR_r sr) (length p + NonceSize + Overhead)] /\
  forall data n err e1,
    conn_Read e (sR_r sr) (length p + NonceSize + Overhead) = (data, n, err, e1) ->
    err = None \/ err = Some io_EOF ->
    Z.of_nat NonceSize <= n <= Z.of_nat (length p + NonceSize + Overhead) ->
    let bs := go_copy (make (length p + NonceSize + Overhead)) data in
    let nonce := take NonceSize bs in
    let ciphertext := take (Z.to_nat n - NonceSize) (drop NonceSize bs) in
    (sR_Read (E:=Logged E) sr p (e, log)).1 =
      match box_open ciphertext nonce (sR_peerPub sr) (sR_priv sr) with
      | None => Returns (0, Some AuthenticationFailure, p)
      | Some m => Returns (Z.of_nat (length m), None, go_copy p m)
      end.
Proof.
  rewrite sR_Read_logged. split; [done|].
  intros data n err e1 Hrd Herr Hn bs nonce ciphertext. cbn [fst].
  rewrite (sR_Read_unfold _ _ _ _ _ _ _ Hrd). cbv zeta. fold bs.
  rewrite decide_False by (intros [? ?]; destruct Herr; done).
  rewrite go_slice_in_range
    by (unfold bs; rewrite length_go_copy, length_make; lia).
  fold ciphertext nonce.
  now destruct (box_open _ _ _ _).
Qed.

(** C4.  A call of [sW.Write] that returns no error made exactly one draw
    of [NonceSize] bytes from the random source and then exactly one write
    on the underlying sink.  The nonce is what that draw stored in a fresh
    24-byte array (the bytes drawn themselves, when 24 were delivered);
    the data of the write is that nonce followed by the box of the
    plaintext under that nonce, [len(p) + NonceSize + Overhead] bytes in
    all. *)
Theorem sW_Write_one_frame sw p e log n e' log' :
  sW_Write (E:=Logged E) sw p (e, log) = (n, None, (e', log')) ->
  exists data e1,
    rand_ReadFull e NonceSize = (data, None, e1) /\
    let nonce := go_copy (make NonceSize) data in
    (length data = NonceSize -> nonce = data) /\
    genNonce e = (inr nonce, e1) /\ length nonce = NonceSize /\
    let frame := nonce ++ box_seal p nonce (sW_peerPub sw) (sW_priv sw) in
    log' = log ++ [EvRandRead NonceSize; EvWrite (sW_w sw) frame] /\
    take NonceSize frame = nonce /\
    length frame = (length p + NonceSize + Overhead)%nat /\
    conn_Write e1 (sW_w sw) frame = (n, None, e').
Proof.
  rewrite sW_Write_logged. unfold sW_Write.
  destruct (genNonce e) as [[err|nonce] e1] eqn:Hgen; cbn [fst snd]; [done|].
  unfold box_Seal.
  destruct (conn_Write e1 _ _) as [[k werr] e2] eqn:Hw. cbn [fst snd].
  intros [= -> -> -> <-].
  pose proof (genNonce_length _ _ _ Hgen) as Hlen.
  pose proof Hgen as Hdraw. unfold genNonce in Hdraw.
  rewrite length_make in Hdraw.
  destruct (rand_ReadFull e NonceSize) as [[data rerr] e1'] eqn:Hrand.
  destruct rerr as [x|]; [done|]. injection Hdraw as <- <-.
  exists data, e1'. cbv zeta. repeat split; try done.
  - intros Hdata. apply go_copy_exact. now rewrite length_make.
  - now apply take_app_length'.
  - rewrite length_app, box_seal_length, Hlen. lia.
Qed.


(** C6 (as amended).  Once the nonce is generated, [sW.Write] makes one
    write of the frame on the underlying sink and returns the count and
    the error of that write as they are; nothing is written again.  So it
    fails, with the transport's own error, whenever that write reports an
    error, short or not; it does not compare the count with the length of
    the frame itself. *)
Theorem sW_Write_transport_error sw p e log nonce e1 n err e2 :
  genNonce e = (inr nonce, e1) ->
  let frame := nonce ++ box_seal p nonce (sW_peerPub sw) (sW_priv sw) in
  conn_Write e1 (sW_w sw) frame = (n, err, e2) ->
  sW_Write (E:=Logged E) sw p (e, log) =
    (n, err, (e2, log ++ [EvRandRead NonceSize; EvWrite (sW_w sw) frame])) /\
  (forall x, err = Some x ->
     (sW_Write sw p e).1 = (n, Some x)).
Proof.
  intros Hgen frame Hw. split.
  - rewrite sW_Write_logged. unfold sW_Write. rewrite Hgen. cbn [fst snd].
    unfold box_Seal. fold frame. now rewrite Hw.
  - intros x ->. unfold sW_Write. rewrite Hgen. unfold box_Seal. fold frame.
    now rewrite Hw.
Qed.

(** The reader's half of the round trip: a source that delivers, in one
    read, a frame sealed by the peer for a message that fits the buffer. *)
Lemma sR_Read_delivers pubA privA pubB privB cr m p nonce e' rerr e'' :
  key_pair pubA privA -> key_pair pubB privB ->
  (length m <= length p)%nat ->
  length nonce = NonceSize ->
  let frame := nonce ++ box_seal m nonce pubB privA in
  conn_Read e' cr (length p + NonceSize + Overhead)
    = (frame, Z.of_nat (length frame), rerr, e'') ->
  rerr = None \/ rerr = Some io_EOF ->
  sR_Read (NewSecureReader cr privB pubA) p e'
    = (Returns (Z.of_nat (length m), None, go_copy p m), e'').
Proof.
  intros HA HB Hfit Hlen frame Hrd Herr.
  rewrite (sR_Read_unfold (NewSecureReader cr privB pubA) _ _ _ _ _ _ Hrd).
  cbv zeta. cbn [sR_peerPub sR_priv].
  rewrite decide_False by (intros [? ?]; destruct Herr; done).
  assert (length frame = (length m + NonceSize + Overhead)%nat) as Hframe.
  { unfold frame. rewrite length_app, box_seal_length, Hlen. lia. }
  rewrite go_copy_le by (rewrite length_make; lia).
  rewrite go_slice_in_range
    by (rewrite length_app, length_drop, length_make; lia).
  rewrite Nat2Z.id.
  assert (take NonceSize (frame ++ drop (length frame)
            (make (length p + NonceSize + Overhead))) = nonce) as ->.
  { unfold frame. rewrite <- app_assoc. now apply take_app_length'. }
  assert (take (length frame - NonceSize)
            (drop NonceSize (frame ++ drop (length frame)
               (make (length p + NonceSize + Overhead))))
          = box_seal m nonce pubB privA) as ->.
  { unfold frame at 2 3. rewrite <- app_assoc.
    rewrite drop_app_length' by done.
    apply take_app_length'. rewrite Hframe, box_seal_length. lia. }
  now rewrite (box_open_seal _ _ _ _ _ _ HA HB).
Qed.

(** C1.  Round trip.  The writer holds [(privA, pubB)], the reader
    [(privB, pubA)], both key pairs valid, and the message fits the
    reader's buffer.  The frame is what [sW.Write] hands to its sink in one
    write; when the reader's source delivers that frame in one read,
    [sR.Read] returns [len(m)] with no error and the buffer starts with
    [m]. *)
Theorem secure_roundtrip pubA privA pubB privB cw cr m p e log nonce e1
    e' rerr e'' :
  key_pair pubA privA -> key_pair pubB privB ->
  (length m <= length p)%nat ->
  genNonce e = (inr nonce, e1) ->
  let frame := nonce ++ box_seal m nonce pubB privA in
  conn_Read e' cr (length p + NonceSize + Overhead)
    = (frame, Z.of_nat (length frame), rerr, e'') ->
  rerr = None \/ rerr = Some io_EOF ->
  (sW_Write (E:=Logged E) (NewSecureWriter cw privA pubB) m (e, log)).2.2
    = log ++ [EvRandRead NonceSize; EvWrite cw frame] /\
  exists p',
    sR_Read (NewSecureReader cr privB pubA) p e'
      = (Returns (Z.of_nat (length m), None, p'), e'') /\
    take (length m) p' = m /\ length p' = length p.
Proof.
  intros HA HB Hfit Hgen frame Hrd Herr.
  pose proof (genNonce_length _ _ _ Hgen) as Hlen.
  split.
  { rewrite sW_Write_logged. cbn [fst snd]. now rewrite Hgen. }
  exists (go_copy p m). split.
  - now apply (sR_Read_delivers pubA privA pubB privB cr m p nonce e' rerr e'').
  - split; [now apply take_go_copy | apply length_go_copy].
Qed.

End Channel.

(** ** The handshake *)

Section Handshake.
Context `{BoxLib} {E : Type} `{Sys E}.

Lemma handshake_error_incomplete msg :
  In msg ["partial write"; "partial read"; "illegal key size";
          "partial pub key write"] ->
  HandshakeIncomplete (handshake_error None msg).
Proof.
  unfold HandshakeIncomplete. cbn.
  intros [<-|[<-|[<-|[<-|[]]]]]; auto.
Qed.

(** C5 (as amended).  In both roles, when a key-exchange write or read
    reports a count other than [KeySize], the handshake stops there and
    returns an error and no session: the transport's own error when the
    transport reported one, and otherwise a [HandshakeIncomplete] error. *)
Theorem handshake_short_rejected :
  (* Dial, writing the local public key *)
  (forall addr (e : E) pub priv e1 c e2 n err e3,
     box_GenerateKey e = (inr (pub, priv), e1) ->
     net_Dial e1 addr = (inr c, e2) ->
     conn_Write e2 c pub = (n, err, e3) ->
     n <> Z.of_nat KeySize ->
     Dial addr e = (None, Some (handshake_error err "partial write"), e3)) /\
  (* Dial, reading the peer's public key *)
  (forall addr (e : E) pub priv e1 c e2 e3 data n err e4,
     box_GenerateKey e = (inr (pub, priv), e1) ->
     net_Dial e1 addr = (inr c, e2) ->
     conn_Write e2 c pub = (Z.of_nat KeySize, None, e3) ->
     conn_Read e3 c KeySize = (data, n, err, e4) ->
     n <> Z.of_nat KeySize ->
     Dial addr e = (None, Some (handshake_error err "partial read"), e4)) /\
  (* Serve, reading the peer's public key *)
  (forall l (e : E) c e1 data n err e2,
     listener_Accept e l = (inr c, e1) ->
     conn_Read e1 c KeySize = (data, n, err, e2) ->
     n <> Z.of_nat KeySize ->
     Serve l e =
       (Returns (Some (handshake_error err "illegal key size")),
        conn_Close e2 c)) /\
  (* Serve, writing the local public key *)
  (forall l (e : E) c e1 data e2 pub priv e3 n err e4,
     listener_Accept e l = (inr c, e1) ->
     conn_Read e1 c KeySize = (data, Z.of_nat KeySize, None, e2) ->
     box_GenerateKey e2 = (inr (pub, priv), e3) ->
     conn_Write e3 c pub = (n, err, e4) ->
     n <> Z.of_nat KeySize ->
     Serve l e =
       (Returns (Some (handshake_error err "partial pub key write")),
        conn_Close e4 c)) /\
  (* without a transport error, each of these is HandshakeIncomplete *)
  (forall msg,
     In msg ["partial write"; "partial read"; "illegal key size";
             "partial pub key write"] ->
     HandshakeIncomplete (handshake_error None msg)).
Proof.
  repeat split.
  - intros addr e pub priv e1 c e2 n err e3 Hkey Hdial Hw Hn.
    unfold Dial. rewrite Hkey, Hdial, Hw.
    destruct err; [done|]. now rewrite decide_True.
  - intros addr e pub priv e1 c e2 e3 data n err e4 Hkey Hdial Hw Hr Hn.
    unfold Dial. rewrite Hkey, Hdial, Hw.
    rewrite decide_False by (intros Hne; now apply Hne).
    rewrite length_make, Hr.
    destruct err; [done|]. now rewrite decide_True.
  - intros l e c e1 data n err e2 Hacc Hr Hn.
    unfold Serve, Serve_conn. rewrite Hacc, length_make, Hr.
    destruct err; [done|]. now rewrite decide_True.
  - intros l e c e1 data e2 pub priv e3 n err e4 Hacc Hr Hkey Hw Hn.
    unfold Serve, Serve_conn. rewrite Hacc, length_make, Hr.
    rewrite decide_False by (intros Hne; now apply Hne).
    rewrite Hkey, Hw.
    destruct err; [done|]. now rewrite decide_True.
  - apply handshake_error_incomplete.
Qed.

End Handshake.

(** ** The echo service *)

Section Echo.
Context `{BoxLib} {E : Type} `{Sys E}.

Hypothesis box_open_length :
  forall c nonce pk sk m,
    box_open c nonce pk sk = Some m -> length c = (length m + Overhead)%nat.

(** X22.  [Serve] in a logged world, step by step.  It accepts once; an
    accept error is returned at once.  On the accepted connection it reads
    the peer's key, generates its own and writes the public half; an error
    or a wrong count at any of these is returned, and nothing follows but
    the deferred close.  It then makes one [sR.Read] into a buffer of
    [bufSize] bytes; an error of that read is returned, and a panic of
    that read leaves [Serve] as a panic.  Otherwise the
    bytes [buf[:j]] it returned are a plaintext [m] that [box.Open]
    verified, and one [sW.Write] is made of exactly [m]; [Serve] returns
    the error of that write, or nil.  The connection is closed in every
    case after the accept. *)
Theorem Serve_echo (l : listener) (e : E) (log : list event) :
  let run := Serve (E:=Logged E) l (e, log) in
  (forall err e1,
     listener_Accept e l = (inl err, e1) ->
     run = (Returns (Some err), (e1, log ++ [EvAccept l]))) /\
  (forall c e1 data n rerr e2,
     listener_Accept e l = (inr c, e1) ->
     conn_Read e1 c KeySize = (data, n, rerr, e2) ->
     let lg2 := log ++ [EvAccept l; EvRead c KeySize] in
     (rerr <> None \/ n <> Z.of_nat KeySize ->
      run = (Returns (Some (handshake_error rerr "illegal key size")),
             (conn_Close e2 c, lg2 ++ [EvClose c]))) /\
     (rerr = None -> n = Z.of_nat KeySize ->
      (forall err e3,
         box_GenerateKey e2 = (inl err, e3) ->
         run = (Returns (Some err),
                (conn_Close e3 c, lg2 ++ [EvGenerateKey; EvClose c]))) /\
      (forall pub priv e3 k werr e4,
         box_GenerateKey e2 = (inr (pub, priv), e3) ->
         conn_Write e3 c pub = (k, werr, e4) ->
         let lg4 := lg2 ++ [EvGenerateKey; EvWrite c pub] in
         (werr <> None \/ k <> Z.of_nat KeySize ->
          run = (Returns (Some (handshake_error werr "partial pub key write")),
                 (conn_Close e4 c, lg4 ++ [EvClose c]))) /\
         (werr = None -> k = Z.of_nat KeySize ->
          let peerPub := go_copy (make KeySize) data in
          let r := NewSecureReader c priv peerPub in
          let w := NewSecureWriter c priv peerPub in
          let lg5 :=
            lg4 ++ [EvRead c (bufSize + NonceSize + Overhead)] in
          forall res e5,
            sR_Read r (make bufSize) e4 = (res, e5) ->
            match res with
            | Panics => run = (Panics, (conn_Close e5 c, lg5 ++ [EvClose c]))
            | Returns (_, Some err, _) =>
                run = (Returns (Some err),
                       (conn_Close e5 c, lg5 ++ [EvClose c]))
            | Returns (j, None, buf) =>
                exists m box nonce_r,
                  box_open box nonce_r peerPub priv = Some m /\
                  j = Z.of_nat (length m) /\
                  go_slice buf 0 j = Some m /\
                  forall k2 werr2 e6,
                    sW_Write w m e5 = (k2, werr2, e6) ->
                    exists wlog,
                      run = (Returns werr2,
                             (conn_Close e6 c, lg5 ++ wlog ++ [EvClose c])) /\
                      (werr2 = None ->
                       exists nonce_w,
                         wlog = [EvRandRead NonceSize;
                                 EvWrite c (nonce_w ++
                                   box_seal m nonce_w peerPub priv)])
            end)))).
Proof.
  intros run. split.
  { intros err e1 Hacc. unfold run, Serve. cbn [listener_Accept Logged_Sys fst snd].
    now rewrite Hacc. }
  intros c e1 data n rerr e2 Hacc Hrd lg2.
  assert (run =
    let '(res, e') := Serve_conn (E:=Logged E) c (e1, log ++ [EvAccept l]) in
    (res, conn_Close e' c)) as Hrun.
  { unfold run, Serve. cbn [listener_Accept Logged_Sys fst snd].
    now rewrite Hacc. }
  rewrite Hrun. clear Hrun. unfold Serve_conn. rewrite length_make.
  cbn [conn_Read conn_Write conn_Close box_GenerateKey Logged_Sys fst snd].
  rewrite Hrd. cbn [fst snd]. rewrite <- app_assoc. cbn [app]. fold lg2.
  split.
  { intros Hbad. destruct rerr as [x|]; [done|].
    rewrite decide_True by (destruct Hbad; done). done. }
  intros -> ->. rewrite decide_False by (intros Hne; now apply Hne).
  split.
  { intros err e3 Hkey. rewrite Hkey. cbn [fst snd].
    now rewrite <- !app_assoc. }
  intros pub priv e3 k werr e4 Hkey Hw. rewrite Hkey. cbn [fst snd].
  rewrite Hw. cbn [fst snd].
  set (lg4 := lg2 ++ [EvGenerateKey; EvWrite c pub]).
  replace ((lg2 ++ [EvGenerateKey]) ++ [EvWrite c pub]) with lg4
    by (unfold lg4; now rewrite <- app_assoc).
  split.
  { intros Hbad. destruct werr as [x|]; [done|].
    rewrite decide_True by (destruct Hbad; done). done. }
  intros -> -> res e5 Hread.
  rewrite decide_False by (intros Hne; now apply Hne).
  set (peerPub := go_copy (make KeySize) data) in *.
  set (r := NewSecureReader c priv peerPub) in *.
  set (w := NewSecureWriter c priv peerPub) in *.
  set (lg5 := lg4 ++ [EvRead c (bufSize + NonceSize + Overhead)]).
  rewrite sR_Read_logged, Hread, length_make. cbn [fst snd]. fold lg5.
  destruct res as [[[j [err|]] buf]|]; [done| |done].
  apply (sR_Read_success box_open_length) in Hread
    as (rdata & rn & rerr & box & m & _ & _ & Hopen & -> & -> & Hle).
  rewrite length_make in Hle.
  eexists m, box, _. split; [exact Hopen|]. split; [done|].
  assert (go_slice (go_copy (make bufSize) m) 0 (Z.of_nat (length m)) = Some m)
    as Hslice by (apply go_slice_go_copy; now rewrite length_make).
  split; [exact Hslice|]. rewrite Hslice.
  intros k2 werr2 e6 Hwrite. rewrite sW_Write_logged, Hwrite. cbn [fst snd].
  exists (EvRandRead NonceSize ::
            match (genNonce e5).1 with
            | inl _ => []
            | inr n => [EvWrite c (box_Seal n m n peerPub priv)]
            end).
  split.
  { destruct werr2; cbn [conn_Close Logged_Sys fst snd sR_r sW_w sW_peerPub
                        sW_priv r w];
      unfold lg5; rewrite <- !app_assoc; reflexivity. }
  intros ->. unfold sW_Write in Hwrite.
  destruct (genNonce e5) as [[gerr|nonce_w] e5']; [done|].
  now exists nonce_w.
Qed.

(** C8 (the code at the failing input).  The handshake goes through and
    the peer then closes the connection: the read of the message answers
    end of stream with zero bytes.  [Serve] does not return that, or any,
    error: [sR.Read] panics on [bs[NonceSize:n]] and the panic leaves
    [Serve], through the deferred close. *)
Theorem Serve_eof_panics l e log c e1 data e2 pub priv e3 e4 rdata e5 :
  listener_Accept e l = (inr c, e1) ->
  conn_Read e1 c KeySize = (data, Z.of_nat KeySize, None, e2) ->
  box_GenerateKey e2 = (inr (pub, priv), e3) ->
  conn_Write e3 c pub = (Z.of_nat KeySize, None, e4) ->
  conn_Read e4 c (bufSize + NonceSize + Overhead)
    = (rdata, 0, Some io_EOF, e5) ->
  Serve (E:=Logged E) l (e, log)
  = (Panics,
     (conn_Close e5 c,
      log ++ [EvAccept l; EvRead c KeySize; EvGenerateKey; EvWrite c pub;
              EvRead c (bufSize + NonceSize + Overhead); EvClose c])).
Proof.
  intros Hacc Hkey Hgen Hpub Hread.
  unfold Serve, Serve_conn. rewrite length_make.
  cbn [listener_Accept conn_Read conn_Write conn_Close box_GenerateKey
       Logged_Sys fst snd].
  rewrite Hacc. cbn [fst snd]. rewrite Hkey. cbn [fst snd].
  rewrite decide_False by (intros Hne; now apply Hne).
  rewrite Hgen. cbn [fst snd]. rewrite Hpub. cbn [fst snd].
  rewrite decide_False by (intros Hne; now apply Hne).
  rewrite sR_Read_logged.
  assert (sR_Read (NewSecureReader c priv (go_copy (make KeySize) data))
                  (make bufSize) e4 = (Panics, e5)) as ->.
  { rewrite (sR_Read_unfold (NewSecureReader c priv _) (make bufSize) e4
               rdata 0 (Some io_EOF) e5)
      by (cbn [sR_r]; now rewrite length_make).
    cbv zeta. rewrite decide_False by (intros [_ Hne]; done).
    rewrite go_slice_out_of_range; [done|]. unfold NonceSize. lia. }
  cbn [fst snd sR_r conn_Close Logged_Sys]. rewrite length_make.
  now rewrite <- !app_assoc.
Qed.

End Echo.

(** * Concrete runs *)

(** Round trip of [hello] from side A to side B over the loopback. *)
Lemma secure_roundtrip_witness :
  exists p',
    sR_Read (H:=ToyBox) (NewSecureReader 0%nat keyB keyA) (make 8) sent_hello
      = (Returns (5, None, p'), mock0) /\
    take 5 p' = hello.
Proof.
  destruct (secure_roundtrip (H:=ToyBox) (E:=Mock) toy_key_pair
              toy_open_seal toy_seal_length keyA keyA keyB keyB 0%nat 0%nat
              hello (make 8) mock0 [] nonce0 mock0 sent_hello None mock0)
    as [_ (p' & Hread & Htake & _)].
  - reflexivity.
  - reflexivity.
  - cbn. lia.
  - reflexivity.
  - reflexivity.
  - now left.
  - exists p'. split; [exact Hread | exact Htake].
Defined.

Lemma sR_Read_eof_panics_witness :
  sR_Read (H:=ToyBox) (NewSecureReader 0%nat keyB keyA) (make 8) mock0
    = (Panics, mock0).
Proof.
  apply (sR_Read_eof_panics (H:=ToyBox) (E:=Mock)
           (NewSecureReader 0%nat keyB keyA) (make 8) mock0 [] mock0).
  reflexivity.
Defined.

Lemma sR_Read_auth_failure_witness :
  sR_Read (H:=ToyBox) (NewSecureReader 0%nat keyB keyA) (make 4) garbage
    = (Returns (0, Some AuthenticationFailure, make 4), mock0).
Proof.
  apply (sR_Read_auth_failure (H:=ToyBox) (E:=Mock)
           (NewSecureReader 0%nat keyB keyA) (make 4) garbage
           (replicate 40 x01) 40 None mock0 (replicate 16 x01)).
  - reflexivity.
  - now left.
  - reflexivity.
  - reflexivity.
Defined.

Lemma sR_Read_count_le_witness :
  0 <= 5 <= Z.of_nat (length (make 8)) /\
  length (hello ++ make 3) = length (make 8).
Proof.
  apply (sR_Read_count_le (H:=ToyBox) (E:=Mock) toy_open_length
           (NewSecureReader 0%nat keyB keyA) (make 8) sent_hello 5 None
           (hello ++ make 3) mock0).
  reflexivity.
Defined.

Lemma sR_Read_single_read_witness :
  (sR_Read (H:=ToyBox) (E:=Logged Mock) (NewSecureReader 0%nat keyB keyA)
     (make 8) (sent_hello, [])).2.2 = [EvRead 0%nat 48] /\
  (sR_Read (H:=ToyBox) (E:=Logged Mock) (NewSecureReader 0%nat keyB keyA)
     (make 8) (sent_hello, [])).1 = Returns (5, None, hello ++ make 3).
Proof.
  destruct (sR_Read_single_read (H:=ToyBox) (E:=Mock)
              (NewSecureReader 0%nat keyB keyA) (make 8) sent_hello [])
    as [Hlog Hres].
  split; [exact Hlog|].
  apply (Hres (nonce0 ++ toy_seal hello nonce0 keyB keyA) 45 None mock0).
  - reflexivity.
  - now left.
  - change (24 <= 45 <= 48). lia.
Defined.

Lemma sW_Write_one_frame_witness :
  exists data e1,
    rand_ReadFull mock0 NonceSize = (data, None, e1) /\
    go_copy (make NonceSize) data = nonce0 /\
    length (go_copy (make NonceSize) data
            ++ toy_seal hello (go_copy (make NonceSize) data) keyB keyA)
      = 45%nat.
Proof.
  destruct (sW_Write_one_frame (H:=ToyBox) (E:=Mock) toy_seal_length
              (NewSecureWriter 0%nat keyA keyB) hello mock0 [] 45 sent_hello
              [EvRandRead NonceSize;
               EvWrite 0%nat (nonce0 ++ toy_seal hello nonce0 keyB keyA)])
    as (data & e1 & Hrand & _ & Hgen & _ & _ & _ & Hframe & _).
  - reflexivity.
  - exists data, e1. split; [exact Hrand|]. split; [|exact Hframe].
    injection Hgen as Hnonce _. symmetry. exact Hnonce.
Defined.


Lemma sW_Write_transport_error_witness :
  sW_Write (H:=ToyBox) (E:=Logged Mock) (NewSecureWriter 0%nat keyA keyB)
    hello (short_write, [])
  = (10, Some (Errno 32),
     (mock0, [EvRandRead NonceSize;
              EvWrite 0%nat (nonce0 ++ toy_seal hello nonce0 keyB keyA)])).
Proof.
  destruct (sW_Write_transport_error (H:=ToyBox) (E:=Mock)
              (NewSecureWriter 0%nat keyA keyB) hello short_write [] nonce0
              short_write 10 (Some (Errno 32)) mock0) as [Hrun _].
  - reflexivity.
  - reflexivity.
  - exact Hrun.
Defined.

(** C6 (as stated) fails.  The sink accepts 10 of the 45 bytes of the
    frame and reports no error: [sW.Write] returns count 10 and no error
    either. *)
Lemma sW_Write_short_without_error :
  conn_Write silent_short 0%nat (nonce0 ++ toy_seal hello nonce0 keyB keyA)
    = (10, None, mock0) /\
  10 < Z.of_nat (length (nonce0 ++ toy_seal hello nonce0 keyB keyA)) /\
  sW_Write (H:=ToyBox) (NewSecureWriter 0%nat keyA keyB) hello silent_short
    = (10, None, mock0).
Proof.
  split; [reflexivity|]. split; [cbn; lia | reflexivity].
Qed.

Lemma Serve_eof_panics_witness :
  Serve (H:=ToyBox) (E:=Logged Mock) 0%nat (peer_leaves, [])
  = (Panics,
     (Build_Mock [] [] [mock_key] [] [] [],
      [EvAccept 0%nat; EvRead 0%nat KeySize; EvGenerateKey;
       EvWrite 0%nat mock_key;
       EvRead 0%nat (bufSize + NonceSize + 16); EvClose 0%nat])).
Proof.
  set (w1 := Build_Mock [([], 0, Some io_EOF)] [] [] [] [] []).
  set (w2 := Build_Mock [([], 0, Some io_EOF)] [] [mock_key] [] [] []).
  set (w3 := Build_Mock [] [] [mock_key] [] [] []).
  exact (Serve_eof_panics (H:=ToyBox) (E:=Mock) 0%nat peer_leaves [] 0%nat
           peer_leaves keyB w1 mock_key mock_key w1 w2 [] w3
           eq_refl eq_refl eq_refl eq_refl eq_refl).
Defined.

(** C5 (as stated) fails.  The peer closes before sending its key: the
    key-exchange read transfers 0 of 32 bytes, and both [Dial] and [Serve]
    return [io.EOF].  The transport cuts the key-exchange write at 10 of 32
    bytes: [Dial] returns the transport's error.  Neither error is a
    [HandshakeIncomplete] error. *)
Lemma handshake_short_not_incomplete :
  conn_Read peer_closed 0%nat KeySize = ([], 0, Some io_EOF, mock0) /\
  (Dial "localhost:8080" peer_closed).1 = (None, Some io_EOF) /\
  (Serve (H:=ToyBox) 0%nat peer_closed).1 = Returns (Some io_EOF) /\
  ~ HandshakeIncomplete io_EOF /\
  conn_Write short_write 0%nat mock_key = (10, Some (Errno 32), mock0) /\
  (Dial "localhost:8080" short_write).1 = (None, Some (Errno 32)) /\
  ~ HandshakeIncomplete (Errno 32).
Proof.
  repeat split; try reflexivity;
    unfold HandshakeIncomplete; intros [|[|[|]]]; discriminate.
Qed.

Lemma handshake_short_rejected_witness :
  Dial "localhost:8080" half_key
    = (None, Some (Errorf "partial read"),
       Build_Mock [] [] [mock_key] [] [] []) /\
  Serve (H:=ToyBox) 0%nat half_key
    = (Returns (Some (Errorf "illegal key size")), mock0) /\
  HandshakeIncomplete (Errorf "partial read").
Proof.
  destruct (handshake_short_rejected (H:=ToyBox) (E:=Mock))
    as (_ & Hdial & Hserve & _ & Hclass).
  split; [|split].
  - apply (Hdial "localhost:8080" half_key mock_key mock_key half_key 0%nat
             half_key
             (Build_Mock [(replicate 16 x01, 16, None)] [] [mock_key] [] [] [])
             (replicate 16 x01) 16 None
             (Build_Mock [] [] [mock_key] [] [] [])); try reflexivity.
    discriminate.
  - apply (Hserve 0%nat half_key 0%nat half_key (replicate 16 x01) 16 None
             mock0); try reflexivity.
    discriminate.
  - apply (Hclass "partial read"). cbn. auto.
Defined.

Lemma bufSize_fits_hello : (length hello <= length (make bufSize))%nat.
Proof.
  rewrite length_make. unfold bufSize.
  change (Z.shiftl 1 15) with 32768. cbn [length hello]. lia.
Qed.

Lemma Serve_echo_witness :
  exists nonce_w final,
    Serve (H:=ToyBox) (E:=Logged Mock) 0%nat (echo_world, [])
    = (Returns None,
       (final,
        [EvAccept 0%nat; EvRead 0%nat KeySize; EvGenerateKey;
         EvWrite 0%nat mock_key;
         EvRead 0%nat (bufSize + NonceSize + 16);
         EvRandRead NonceSize;
         EvWrite 0%nat (nonce_w ++ toy_seal hello nonce_w keyB mock_key);
         EvClose 0%nat])).
Proof.
  destruct (Serve_echo (H:=ToyBox) (E:=Mock) toy_open_length 0%nat
              echo_world []) as [_ Hstep].
  set (w1 := Build_Mock [] [] [nonce0 ++ toy_seal hello nonce0 mock_key keyB]
                        [] [] []).
  set (w2 := Build_Mock [] []
               [nonce0 ++ toy_seal hello nonce0 mock_key keyB; mock_key]
               [] [] []).
  set (w3 := Build_Mock [] [] [mock_key] [] [] []).
  destruct (Hstep 0%nat echo_world keyB 32 None w1 eq_refl eq_refl)
    as [_ Hkeys].
  destruct (Hkeys eq_refl eq_refl) as [_ Hkey].
  destruct (Hkey mock_key mock_key w1 32 None w2 eq_refl eq_refl)
    as [_ Hrelay].
  assert (sR_Read (H:=ToyBox)
            (NewSecureReader 0%nat mock_key (go_copy (make KeySize) keyB))
            (make bufSize) w2
          = (Returns (Z.of_nat (length hello), None,
                      go_copy (make bufSize) hello), w3)) as Hread.
  { apply (sR_Read_delivers (H:=ToyBox) (E:=Mock) toy_key_pair toy_open_seal
             toy_seal_length keyB keyB mock_key mock_key 0%nat hello
             (make bufSize) nonce0 w2 None w3).
    - reflexivity.
    - reflexivity.
    - exact bufSize_fits_hello.
    - reflexivity.
    - rewrite length_make. reflexivity.
    - now left. }
  specialize (Hrelay eq_refl eq_refl _ _ Hread).
  cbv beta iota in Hrelay.
  destruct Hrelay as (m & box & nonce_r & _ & _ & Hslice & Hwrite).
  rewrite (go_slice_go_copy _ _ bufSize_fits_hello) in Hslice.
  injection Hslice as <-.
  destruct (Hwrite 45 None
              (Build_Mock [] []
                 [mock_key; nonce0 ++ toy_seal hello nonce0 keyB mock_key]
                 [] [] []) eq_refl)
    as (wlog & Hrun & Hlog).
  destruct (Hlog eq_refl) as [nonce_w ->].
  exists nonce_w. eexists. exact Hrun.
Defined.

(** * More of the channel *)

Section ChannelMore.
Context `{BoxLib} {E : Type} `{Sys E}.

Hypothesis box_open_length :
  forall c nonce pk sk m,
    box_open c nonce pk sk = Some m -> length c = (length m + Overhead)%nat.

(** X1.  [sR.Read] panics exactly when the underlying read went through
    (no error, or end of stream) with a count below [NonceSize] or above
    the staging buffer's length; in every other case it returns. *)
Theorem sR_Read_panics_iff sr p e data n err e1 :
  conn_Read e (sR_r sr) (length p + NonceSize + Overhead) = (data, n, err, e1) ->
  (sR_Read sr p e).1 = Panics <->
  (err = None \/ err = Some io_EOF) /\
  (n < Z.of_nat NonceSize \/ Z.of_nat (length p + NonceSize + Overhead) < n).
Proof.
  intros Hrd. rewrite (sR_Read_unfold _ _ _ _ _ _ _ Hrd). cbv zeta.
  destruct (decide (err <> None /\ err <> Some io_EOF)) as [[Hn He]|Hgo].
  { cbn [fst]. split; [done|]. intros [[->| ->] _]; done. }
  assert (err = None \/ err = Some io_EOF) as Herr.
  { destruct err as [x|]; [|now left]. right.
    destruct (decide (Some x = Some io_EOF)); [done|]. exfalso. now apply Hgo. }
  unfold go_slice. rewrite length_go_copy, length_make.
  destruct (decide _) as [Hin|Hout].
  - destruct (box_open _ _ _ _); cbn [fst]; (split; [done|]); intros [_ Hn]; lia.
  - cbn [fst]. split; [|done]. intros _. split; [done|]. lia.
Qed.

(** X2.  An error returned by [sR.Read] is never [io.EOF]: it is the
    transport's own error, other than end of stream, or the
    authentication failure; and with it the count is 0 and the caller's
    buffer is as it was. *)
Theorem sR_Read_error_shape sr p e k x p' e' :
  sR_Read sr p e = (Returns (k, Some x, p'), e') ->
  k = 0 /\ p' = p /\ x <> io_EOF /\
  (x = AuthenticationFailure \/
   exists data n,
     conn_Read e (sR_r sr) (length p + NonceSize + Overhead)
       = (data, n, Some x, e')).
Proof.
  destruct (conn_Read e (sR_r sr) (length p + NonceSize + Overhead))
    as [[[data n] rerr] e1] eqn:Hrd.
  rewrite (sR_Read_unfold _ _ _ _ _ _ _ Hrd). cbv zeta.
  destruct (decide _) as [[Hn He]|_].
  - intros [= <- -> <- <-]. repeat split; try done.
    + intros ->. now apply He.
    + right. now exists data, n.
  - destruct (go_slice _ _ _); [|done].
    destruct (box_open _ _ _ _); [done|].
    intros [= <- <- <- <-]. repeat split; try done. now left.
Qed.

(** X3.  When [sR.Read] returns count [k] without error, the first [k]
    bytes of the caller's buffer are the plaintext [box.Open] verified,
    and every byte after them is what the buffer held before the call. *)
Theorem sR_Read_buffer_tail sr p e k p' e' :
  sR_Read sr p e = (Returns (k, None, p'), e') ->
  exists box nonce m,
    box_open box nonce (sR_peerPub sr) (sR_priv sr) = Some m /\
    k = Z.of_nat (length m) /\
    take (length m) p' = m /\
    drop (length m) p' = drop (length m) p /\
    length p' = length p.
Proof.
  intros Hok. apply (sR_Read_success box_open_length) in Hok
    as (data & n & rerr & box & m & _ & _ & Hopen & -> & -> & Hle).
  eexists box, _, m. split; [exact Hopen|]. split; [done|].
  split; [now apply take_go_copy|]. split; [|apply length_go_copy].
  rewrite go_copy_le by done. now rewrite drop_app_length.
Qed.

(** X4.  When the random source fails, [sW.Write] returns count 0 with
    the source's error and makes no write on the sink: no frame, not even
    a partial one, leaves the process. *)
Theorem sW_Write_no_randomness sw p e log data err e1 :
  rand_ReadFull e NonceSize = (data, Some err, e1) ->
  sW_Write (E:=Logged E) sw p (e, log)
    = (0, Some err, (e1, log ++ [EvRandRead NonceSize])).
Proof.
  intros Hrand. rewrite sW_Write_logged. unfold sW_Write, genNonce.
  rewrite length_make, Hrand. reflexivity.
Qed.

(** X5.  Two writes in a row.  Each frame starts with the 24 bytes the
    random source delivered for it, so the two frames carry the same
    nonce exactly when the source repeated itself; [sW.Write] keeps no
    state of its own between calls. *)
Theorem sW_Write_twice_nonces sw p1 p2 e log d1 e1 k1 err1 e2 d2 e3 k2 err2 e4 :
  rand_ReadFull e NonceSize = (d1, None, e1) -> length d1 = NonceSize ->
  let frame1 := d1 ++ box_seal p1 d1 (sW_peerPub sw) (sW_priv sw) in
  conn_Write e1 (sW_w sw) frame1 = (k1, err1, e2) ->
  rand_ReadFull e2 NonceSize = (d2, None, e3) -> length d2 = NonceSize ->
  let frame2 := d2 ++ box_seal p2 d2 (sW_peerPub sw) (sW_priv sw) in
  conn_Write e3 (sW_w sw) frame2 = (k2, err2, e4) ->
  let first := sW_Write (E:=Logged E) sw p1 (e, log) in
  sW_Write (E:=Logged E) sw p2 first.2
    = (k2, err2,
       (e4, log ++ [EvRandRead NonceSize; EvWrite (sW_w sw) frame1;
                    EvRandRead NonceSize; EvWrite (sW_w sw) frame2])) /\
  (take NonceSize frame1 = take NonceSize frame2 <-> d1 = d2).
Proof.
  intros Hr1 Hl1 frame1 Hw1 Hr2 Hl2 frame2 Hw2 first.
  assert (genNonce e = (inr d1, e1)) as Hg1.
  { unfold genNonce. rewrite length_make, Hr1.
    now rewrite go_copy_exact by (now rewrite length_make). }
  assert (genNonce e2 = (inr d2, e3)) as Hg2.
  { unfold genNonce. rewrite length_make, Hr2.
    now rewrite go_copy_exact by (now rewrite length_make). }
  split.
  - unfold first. rewrite sW_Write_logged. cbn [snd].
    assert (sW_Write sw p1 e = (k1, err1, e2)) as ->.
    { unfold sW_Write. rewrite Hg1. exact Hw1. }
    rewrite Hg1. cbn [fst snd]. rewrite sW_Write_logged.
    assert (sW_Write sw p2 e2 = (k2, err2, e4)) as ->.
    { unfold sW_Write. rewrite Hg2. exact Hw2. }
    rewrite Hg2. cbn [fst snd]. unfold box_Seal. fold frame1 frame2.
    now rewrite <- app_assoc.
  - unfold frame1, frame2.
    rewrite !take_app_length' by done. done.
Qed.

End ChannelMore.

(** * More of the handshake: [Dial] *)

Section DialMore.
Context `{BoxLib} {E : Type} `{Sys E}.

(** X6.  Whatever the world answers, the calls [Dial] makes are an
    initial part of: generate a key pair, dial, write the public key, read
    [KeySize] bytes.  So the only data it writes is the public key it
    generated, and it never closes the connection, also when the
    handshake fails; and it returns a session exactly when it returns no
    error. *)
Theorem Dial_trace addr e log s err e' log' :
  Dial (E:=Logged E) addr (e, log) = (s, err, (e', log')) ->
  (s = None <-> err <> None) /\
  exists c pub evs,
    log' = log ++ evs /\
    evs `prefix_of`
      [EvGenerateKey; EvDial addr; EvWrite c pub; EvRead c KeySize] /\
    (EvWrite c pub ∈ evs ->
     exists priv e1, box_GenerateKey e = (inr (pub, priv), e1)).
Proof.
  unfold Dial. rewrite length_make.
  cbn [box_GenerateKey net_Dial conn_Write conn_Read Logged_Sys fst snd].
  destruct (box_GenerateKey e) as [[gerr|[pub priv]] e1] eqn:Hkey; cbn [fst snd].
  { intros [= <- <- <- <-]. split; [done|].
    exists 0%nat, [], [EvGenerateKey]. split; [done|]. split.
    - now exists [EvDial addr; EvWrite 0%nat []; EvRead 0%nat KeySize].
    - intros Hin. apply list_elem_of_singleton in Hin. discriminate. }
  destruct (net_Dial e1 addr) as [[derr|c] e2] eqn:Hdial; cbn [fst snd].
  { intros [= <- <- <- <-]. split; [done|].
    exists 0%nat, pub, [EvGenerateKey; EvDial addr]. split.
    - now rewrite <- app_assoc.
    - split; [now exists [EvWrite 0%nat pub; EvRead 0%nat KeySize]|].
      intros Hin. now exists priv, e1. }
  destruct (conn_Write e2 c pub) as [[n werr] e3] eqn:Hw; cbn [fst snd].
  assert (((log ++ [EvGenerateKey]) ++ [EvDial addr]) ++ [EvWrite c pub]
          = log ++ [EvGenerateKey; EvDial addr; EvWrite c pub]) as Hlog3
    by now rewrite <- !app_assoc.
  destruct werr as [x|].
  { intros [= <- <- <- <-]. split; [done|].
    exists c, pub, [EvGenerateKey; EvDial addr; EvWrite c pub].
    split; [exact Hlog3|]. split; [now exists [EvRead c KeySize]|].
    intros _. now exists priv, e1. }
  destruct (decide (n <> Z.of_nat KeySize)).
  { intros [= <- <- <- <-]. split; [done|].
    exists c, pub, [EvGenerateKey; EvDial addr; EvWrite c pub].
    split; [exact Hlog3|]. split; [now exists [EvRead c KeySize]|].
    intros _. now exists priv, e1. }
  destruct (conn_Read e3 c KeySize) as [[[data rn] rerr] e4] eqn:Hr;
    cbn [fst snd].
  assert ((((log ++ [EvGenerateKey]) ++ [EvDial addr]) ++ [EvWrite c pub])
            ++ [EvRead c KeySize]
          = log ++ [EvGenerateKey; EvDial addr; EvWrite c pub;
                    EvRead c KeySize]) as Hlog4
    by now rewrite <- !app_assoc.
  destruct rerr as [x|]; [|destruct (decide (rn <> Z.of_nat KeySize))];
    intros [= <- <- <- <-]; (split; [done|]);
    exists c, pub, [EvGenerateKey; EvDial addr; EvWrite c pub; EvRead c KeySize];
    (split; [exact Hlog4|]); (split; [done|]); intros _; now exists priv, e1.
Qed.

(** X7.  A session returned by [Dial] comes with no error, after all four
    calls; its reader, its writer and its closer are the one connection
    that was dialled; reader and writer hold the private key that was
    generated and, as the peer's key, [KeySize] bytes taken from the one
    read. *)
Theorem Dial_session addr e log s err e' log' :
  Dial (E:=Logged E) addr (e, log) = (Some s, err, (e', log')) ->
  err = None /\
  exists pub priv e1 c e2 e3 data,
    box_GenerateKey e = (inr (pub, priv), e1) /\
    net_Dial e1 addr = (inr c, e2) /\
    conn_Write e2 c pub = (Z.of_nat KeySize, None, e3) /\
    conn_Read e3 c KeySize = (data, Z.of_nat KeySize, None, e') /\
    let peerPub := go_copy (make KeySize) data in
    length peerPub = KeySize /\
    s = Build_sRWC (NewSecureReader c priv peerPub)
                   (NewSecureWriter c priv peerPub) c /\
    log' = log ++ [EvGenerateKey; EvDial addr; EvWrite c pub;
                   EvRead c KeySize].
Proof.
  unfold Dial. rewrite length_make.
  cbn [box_GenerateKey net_Dial conn_Write conn_Read Logged_Sys fst snd].
  destruct (box_GenerateKey e) as [[gerr|[pub priv]] e1] eqn:Hkey;
    cbn [fst snd]; [done|].
  destruct (net_Dial e1 addr) as [[derr|c] e2] eqn:Hdial; cbn [fst snd]; [done|].
  destruct (conn_Write e2 c pub) as [[n werr] e3] eqn:Hw; cbn [fst snd].
  destruct werr as [x|]; [done|].
  destruct (decide (n <> Z.of_nat KeySize)) as [|Hn]; [done|].
  destruct (conn_Read e3 c KeySize) as [[[data rn] rerr] e4] eqn:Hr;
    cbn [fst snd].
  destruct rerr as [x|]; [done|].
  destruct (decide (rn <> Z.of_nat KeySize)) as [|Hrn]; [done|].
  intros [= <- <- <- <-]. split; [done|].
  assert (n = Z.of_nat KeySize) as -> by (destruct (decide (n = Z.of_nat KeySize)); done).
  assert (rn = Z.of_nat KeySize) as -> by (destruct (decide (rn = Z.of_nat KeySize)); done).
  exists pub, priv, e1, c, e2, e3, data.
  repeat split; try done.
  - now rewrite length_go_copy, length_make.
  - now rewrite <- !app_assoc.
Qed.

End DialMore.

(** * End to end: the echo server and the client command *)

Section EndToEnd.
Context `{BoxLib} {E : Type} `{Sys E} `{SysMain E}.

Variable key_pair : bytes -> bytes -> Prop.

Hypothesis box_open_seal :
  forall pubA privA pubB privB m nonce,
    key_pair pubA privA -> key_pair pubB privB ->
    box_open (box_seal m nonce pubB privA) nonce pubA privB = Some m.

Hypothesis box_seal_length :
  forall m nonce pk sk,
    length (box_seal m nonce pk sk) = (length m + Overhead)%nat.

Hypothesis box_open_length :
  forall c nonce pk sk m,
    box_open c nonce pk sk = Some m -> length c = (length m + Overhead)%nat.


(** X9.  In listen mode ([-l] other than 0) the command never prints
    anything and never ends with exit status 0: it ends in [log.Fatal],
    also after an echo that went well ([Serve] returned nil), or in a
    panic; and the listener is closed only on the way out of a panic. *)
Theorem main_listen_never_ok port args e :
  port <> 0 ->
  (forall out, (main port args e).1 <> ExitOK out) /\
  (forall l e1 v e2,
     net_Listen e (":" +:+ pretty port) = (inr l, e1) ->
     Serve l e1 = (Returns v, e2) ->
     main port args e = (LogFatal (FatalError v), e2)) /\
  (forall l e1 e2,
     net_Listen e (":" +:+ pretty port) = (inr l, e1) ->
     Serve l e1 = (Panics, e2) ->
     main port args e = (Crash, listener_Close e2 l)).
Proof.
  intros Hport. unfold main. rewrite decide_True by done.
  split; [|split].
  - intros out.
    destruct (net_Listen e _) as [[err|l] e1]; [done|].
    destruct (Serve l e1) as [[v|] e2]; done.
  - intros l e1 v e2 -> ->. reflexivity.
  - intros l e1 e2 -> ->. reflexivity.
Qed.

(** X10.  Whatever the network does, anything the command prints is a
    plaintext that [box.Open] verified under the keys of the session
    [Dial] returned, followed by a newline, and it is no longer than the
    message given on the command line.  That happens in client mode only,
    with exactly three arguments. *)
Theorem main_prints_authenticated port args e out e' :
  main port args e = (ExitOK out, e') ->
  port = 0 /\
  exists prog arg1 arg2 conn e1 box nonce m,
    args = [prog; arg1; arg2] /\
    Dial ("localhost:" +:+ arg1) e = (Some conn, None, e1) /\
    box_open box nonce (sR_peerPub (sRWC_Reader conn))
             (sR_priv (sRWC_Reader conn)) = Some m /\
    out = m ++ [x0a] /\
    (length m <= length (list_byte_of_string arg2))%nat.
Proof.
  unfold main. destruct (decide (port <> 0)) as [Hp|Hp].
  { destruct (net_Listen e _) as [[err|l] e1]; [done|].
    destruct (Serve l e1) as [[v|] e2]; done. }
  assert (port = 0) as -> by (destruct (decide (port = 0)); done).
  destruct (decide (length args <> 3%nat)) as [Hn|Hn].
  { destruct args; done. }
  destruct args as [|prog [|arg1 [|arg2 [|extra args]]]]; try done.
  destruct (Dial _ e) as [[[conn|] [derr|]] e1] eqn:Hdial; try done.
  destruct (sW_Write _ _ e1) as [[wn [werr|]] e2]; [done|].
  destruct (sR_Read _ _ e2) as [[[[n rerr] buf]|] e3] eqn:Hread; [|done].
  destruct (decide (rerr <> None /\ rerr <> Some io_EOF)) as [Hbad|Hgo]; [done|].
  destruct rerr as [x|].
  { apply sR_Read_error_shape in Hread as (_ & _ & Hx & _).
    exfalso. apply Hgo. split; [done|]. intros [= ->]. now apply Hx. }
  apply (sR_Read_buffer_tail box_open_length) in Hread
    as (box & nonce & m & Hopen & -> & Htake & _ & Hlen).
  assert (length m <= length buf)%nat as Hle.
  { rewrite <- Htake, length_take. lia. }
  rewrite go_slice_in_range by lia.
  rewrite drop_0, Nat2Z.id, Nat.sub_0_r, Htake.
  intros [= <- <-]. split; [done|].
  exists prog, arg1, arg2, conn, e1, box, nonce, m.
  repeat split; try done.
  rewrite length_make in Hlen. lia.
Qed.

(** X11.  The client's side of one echo.  With three arguments and
    [-l] unset, the handshake goes through, the message is written, and
    the server's answer, read in one read, is a frame sealing the same
    message for the client.  Then the command prints the message and a
    newline, and ends with status 0. *)
Theorem main_client_echo prog arg1 arg2 e pubC privC e1 c e2 e3 pubS privS e4
    nonce1 e5 k e6 nonce2 rerr e7 :
  key_pair pubC privC -> key_pair pubS privS ->
  length pubS = KeySize -> length nonce2 = NonceSize ->
  let m := list_byte_of_string arg2 in
  box_GenerateKey e = (inr (pubC, privC), e1) ->
  net_Dial e1 ("localhost:" +:+ arg1) = (inr c, e2) ->
  conn_Write e2 c pubC = (Z.of_nat KeySize, None, e3) ->
  conn_Read e3 c KeySize = (pubS, Z.of_nat KeySize, None, e4) ->
  genNonce e4 = (inr nonce1, e5) ->
  conn_Write e5 c (nonce1 ++ box_seal m nonce1 pubS privC) = (k, None, e6) ->
  let frame2 := nonce2 ++ box_seal m nonce2 pubC privS in
  conn_Read e6 c (length m + NonceSize + Overhead)
    = (frame2, Z.of_nat (length frame2), rerr, e7) ->
  rerr = None \/ rerr = Some io_EOF ->
  main 0 [prog; arg1; arg2] e = (ExitOK (m ++ [x0a]), e7).
Proof.
  intros HC HS HlenS Hlen2 m Hgen Hdial Hpub Hkey Hnonce Hsend frame2 Hecho
         Hrerr.
  unfold main. rewrite decide_False by (intros Hne; now apply Hne).
  rewrite decide_False by (intros Hne; now apply Hne).
  unfold Dial. rewrite Hgen, Hdial, Hpub.
  rewrite decide_False by (intros Hne; now apply Hne).
  rewrite length_make, Hkey.
  rewrite decide_False by (intros Hne; now apply Hne).
  rewrite (go_copy_exact (make KeySize) pubS) by (now rewrite length_make).
  cbn [sRWC_Writer sRWC_Reader]. fold m.
  assert (sW_Write (NewSecureWriter c privC pubS) m e4 = (k, None, e6)) as ->.
  { unfold sW_Write. rewrite Hnonce. exact Hsend. }
  assert (sR_Read (NewSecureReader c privC pubS) (make (length m)) e6
          = (Returns (Z.of_nat (length m), None, go_copy (make (length m)) m),
             e7)) as ->.
  { apply (sR_Read_delivers key_pair box_open_seal box_seal_length
             pubS privS pubC privC c m (make (length m)) nonce2 e6 rerr e7);
      try done; now rewrite length_make. }
  rewrite decide_False by (intros [Hn _]; now apply Hn).
  rewrite go_slice_go_copy by (now rewrite length_make). reflexivity.
Qed.

End EndToEnd.

(** * Concrete runs, continued *)

Lemma sR_Read_panics_iff_witness :
  (sR_Read (H:=ToyBox) (NewSecureReader 0%nat keyB keyA) (make 8) mock0).1
    = Panics <->
  (Some io_EOF = None \/ Some io_EOF = Some io_EOF) /\
  (0 < Z.of_nat NonceSize \/ Z.of_nat (length (make 8) + NonceSize + 16) < 0).
Proof.
  apply (sR_Read_panics_iff (H:=ToyBox) (E:=Mock)
           (NewSecureReader 0%nat keyB keyA) (make 8) mock0 [] 0
           (Some io_EOF) mock0).
  reflexivity.
Defined.

Lemma sR_Read_error_shape_witness :
  AuthenticationFailure <> io_EOF /\
  (AuthenticationFailure = AuthenticationFailure \/
   exists data n,
     conn_Read garbage 0%nat (length (make 4) + NonceSize + 16)
       = (data, n, Some AuthenticationFailure, mock0)).
Proof.
  destruct (sR_Read_error_shape (H:=ToyBox) (E:=Mock)
              (NewSecureReader 0%nat keyB keyA) (make 4) garbage 0
              AuthenticationFailure (make 4) mock0) as (_ & _ & Hne & Hor).
  - reflexivity.
  - split; [exact Hne | exact Hor].
Defined.

Lemma sR_Read_buffer_tail_witness :
  exists box nonce m,
    toy_open box nonce keyA keyB = Some m /\
    5 = Z.of_nat (length m) /\
    take (length m) (hello ++ make 3) = m /\
    drop (length m) (hello ++ make 3) = drop (length m) (make 8) /\
    length (hello ++ make 3) = length (make 8).
Proof.
  apply (sR_Read_buffer_tail (H:=ToyBox) (E:=Mock) toy_open_length
           (NewSecureReader 0%nat keyB keyA) (make 8) sent_hello 5
           (hello ++ make 3) mock0).
  reflexivity.
Defined.

Lemma sW_Write_no_randomness_witness :
  sW_Write (H:=ToyBox) (E:=Logged Mock) (NewSecureWriter 0%nat keyA keyB)
    hello (no_entropy, [])
  = (0, Some (Errno 5), (mock0, [EvRandRead NonceSize])).
Proof.
  apply (sW_Write_no_randomness (H:=ToyBox) (E:=Mock)
           (NewSecureWriter 0%nat keyA keyB) hello no_entropy [] []
           (Errno 5) mock0).
  reflexivity.
Defined.

Lemma sW_Write_twice_nonces_witness :
  take NonceSize
    (replicate NonceSize x01 ++ toy_seal hello (replicate NonceSize x01) keyB keyA)
  = take NonceSize
    (replicate NonceSize x02 ++ toy_seal hello (replicate NonceSize x02) keyB keyA)
  <-> replicate NonceSize x01 = replicate NonceSize x02.
Proof.
  set (d1 := replicate NonceSize x01). set (d2 := replicate NonceSize x02).
  set (w1 := Build_Mock [] [] [] [(d2, None)] [] []).
  set (w2 := Build_Mock [] [] [d1 ++ toy_seal hello d1 keyB keyA]
                        [(d2, None)] [] []).
  set (w3 := Build_Mock [] [] [d1 ++ toy_seal hello d1 keyB keyA] [] [] []).
  set (w4 := Build_Mock [] []
               [d1 ++ toy_seal hello d1 keyB keyA;
                d2 ++ toy_seal hello d2 keyB keyA] [] [] []).
  destruct (sW_Write_twice_nonces (H:=ToyBox) (E:=Mock)
              (NewSecureWriter 0%nat keyA keyB) hello hello two_draws []
              d1 w1 45 None w2 d2 w3 45 None w4) as [_ Hiff];
    [reflexivity.. | exact Hiff].
Defined.

Lemma Dial_trace_witness :
  (@None sRWC = None <-> Some (Errorf "partial read") <> None) /\
  exists c pub evs,
    [EvGenerateKey; EvDial "localhost:8080"; EvWrite 0%nat mock_key;
     EvRead 0%nat KeySize] = [] ++ evs /\
    evs `prefix_of`
      [EvGenerateKey; EvDial "localhost:8080"; EvWrite c pub;
       EvRead c KeySize] /\
    (EvWrite c pub ∈ evs ->
     exists priv e1, box_GenerateKey half_key = (inr (pub, priv), e1)).
Proof.
  apply (Dial_trace (E:=Mock) "localhost:8080" half_key [] None
           (Some (Errorf "partial read"))
           (Build_Mock [] [] [mock_key] [] [] [])).
  reflexivity.
Defined.

Lemma Dial_session_witness :
  exists s e',
    Dial (E:=Logged Mock) "localhost:8080" (client_world, [])
    = (Some s, None,
       (e', [EvGenerateKey; EvDial "localhost:8080"; EvWrite 0%nat mock_key;
             EvRead 0%nat KeySize])) /\
    sR_peerPub (sRWC_Reader s) = keyB /\
    sR_priv (sRWC_Reader s) = mock_key.
Proof.
  set (s := Build_sRWC (NewSecureReader 0%nat mock_key keyB)
                       (NewSecureWriter 0%nat mock_key keyB) 0%nat).
  set (e' := Build_Mock
               [(nonce0 ++ toy_seal hello nonce0 mock_key keyB, 45, None)]
               [] [mock_key] [] [] []).
  assert (Dial (E:=Logged Mock) "localhost:8080" (client_world, [])
          = (Some s, None,
             (e', [EvGenerateKey; EvDial "localhost:8080";
                   EvWrite 0%nat mock_key; EvRead 0%nat KeySize]))) as Hrun
    by reflexivity.
  destruct (Dial_session (E:=Mock) "localhost:8080" client_world [] s None e'
              _ Hrun) as [_ _].
  exists s, e'. split; [exact Hrun|]. split; reflexivity.
Defined.



Lemma main_listen_never_ok_witness :
  main (H:=ToyBox) 8080 ["echo"; "-l"; "8080"] accept_fails
  = (LogFatal (FatalError (Some (Errno 24))), mock0).
Proof.
  destruct (main_listen_never_ok (H:=ToyBox) (E:=Mock) 8080
              ["echo"; "-l"; "8080"] accept_fails) as (_ & Hfatal & _).
  - discriminate.
  - apply (Hfatal 1%nat accept_fails (Some (Errno 24)) mock0); reflexivity.
Defined.

Lemma main_prints_authenticated_witness :
  exists box nonce m,
    toy_open box nonce keyB mock_key = Some m /\
    hello ++ [x0a] = m ++ [x0a] /\
    (length m <= length (list_byte_of_string "hello"))%nat.
Proof.
  destruct (main_prints_authenticated (H:=ToyBox) (E:=Mock) toy_open_length
              0 ["echo"; "8080"; "hello"] client_world (hello ++ [x0a])
              (Build_Mock [] []
                 [mock_key; nonce0 ++ toy_seal hello nonce0 keyB mock_key]
                 [] [] []))
    as (_ & prog & arg1 & arg2 & conn & e1 & box & nonce & m
        & Hargs & Hdial & Hopen & Hout & Hlen).
  - reflexivity.
  - injection Hargs as <- <- <-.
    injection Hdial as <- _.
    exists box, nonce, m. split; [exact Hopen|]. split; [exact Hout | exact Hlen].
Defined.

Lemma main_client_echo_witness :
  main (H:=ToyBox) 0 ["echo"; "8080"; "hello"] client_world
  = (ExitOK (hello ++ [x0a]),
     Build_Mock [] []
       [mock_key; nonce0 ++ toy_seal hello nonce0 keyB mock_key] [] [] []).
Proof.
  set (w1 := Build_Mock
               [(keyB, 32, None);
                (nonce0 ++ toy_seal hello nonce0 mock_key keyB, 45, None)]
               [] [mock_key] [] [] []).
  set (w2 := Build_Mock
               [(nonce0 ++ toy_seal hello nonce0 mock_key keyB, 45, None)]
               [] [mock_key] [] [] []).
  set (w3 := Build_Mock
               [(nonce0 ++ toy_seal hello nonce0 mock_key keyB, 45, None)]
               [] [mock_key; nonce0 ++ toy_seal hello nonce0 keyB mock_key]
               [] [] []).
  set (w4 := Build_Mock [] []
               [mock_key; nonce0 ++ toy_seal hello nonce0 keyB mock_key]
               [] [] []).
  apply (main_client_echo (H:=ToyBox) (E:=Mock) toy_key_pair toy_open_seal
           toy_seal_length "echo" "8080" "hello" client_world mock_key
           mock_key client_world 0%nat client_world w1 keyB keyB w2 nonce0 w2
           45 w3 nonce0 None w4); try reflexivity.
  now left.
Defined.

(** * The decoder of [.splice] files *)

(** ** Buffers *)

Lemma Buffer_Next_nonneg buf n :
  0 <= n ->
  Buffer_Next buf n = Some (take (Z.to_nat n) buf, drop (Z.to_nat n) buf).
Proof.
  intros Hn. unfold Buffer_Next. cbv zeta.
  destruct (decide (n > Z.of_nat (length buf))) as [Hgt|Hle].
  - rewrite decide_False by lia. rewrite Nat2Z.id.
    rewrite !take_ge, !drop_ge by lia. reflexivity.
  - now rewrite decide_False by lia.
Qed.

Lemma Buffer_Next_neg buf n : n < 0 -> Buffer_Next buf n = None.
Proof.
  intros Hn. unfold Buffer_Next. cbv zeta.
  destruct (decide (n > Z.of_nat (length buf))) as [Hgt|Hle]; [lia|].
  now rewrite decide_True by lia.
Qed.

Lemma Buffer_Next_app a b n :
  Z.of_nat (length a) = n -> Buffer_Next (a ++ b) n = Some (a, b).
Proof.
  intros <-. rewrite Buffer_Next_nonneg by lia. rewrite Nat2Z.id.
  now rewrite take_app_length, drop_app_length.
Qed.

Lemma Buffer_Next_lengths buf n front back :
  Buffer_Next buf n = Some (front, back) ->
  buf = front ++ back /\ 0 <= n /\
  length front = Nat.min (Z.to_nat n) (length buf).
Proof.
  destruct (decide (n < 0)) as [Hneg|Hpos].
  { now rewrite Buffer_Next_neg. }
  rewrite Buffer_Next_nonneg by lia. intros [= <- <-].
  rewrite take_drop, length_take. repeat split; lia.
Qed.

Lemma Buffer_ReadFull_app a b k :
  length a = k -> k <> 0%nat -> Buffer_ReadFull (a ++ b) k = (inr a, b).
Proof.
  intros <- Hk. unfold Buffer_ReadFull.
  rewrite decide_False by done.
  rewrite decide_False by (rewrite length_app; lia).
  rewrite decide_False by (rewrite length_app; lia).
  now rewrite take_app_length, drop_app_length.
Qed.

Lemma Buffer_ReadFull_ok buf k bs rest :
  Buffer_ReadFull buf k = (inr bs, rest) ->
  buf = bs ++ rest /\ length bs = k.
Proof.
  unfold Buffer_ReadFull.
  destruct (decide (k = 0%nat)) as [->|Hk]; [now intros [= <- <-]|].
  destruct (decide (length buf = 0%nat)); [done|].
  destruct (decide (length buf < k)%nat); [done|].
  intros [= <- <-]. rewrite take_drop, length_take. split; [done | lia].
Qed.

(** ** The track loop *)

(** With more fuel than bytes the loop ends, and every track it adds has
    used up at least five bytes. *)
Lemma DecodeFile_tracks_ends fuel : forall buf p,
  (length buf < fuel)%nat ->
  exists r,
    DecodeFile_tracks fuel buf p = Some r /\
    forall p' err,
      r = Returns (Some p', err) ->
      (5 * length (Pattern_tracks p')
       <= 5 * length (Pattern_tracks p) + length buf)%nat.
Proof.
  induction fuel as [|fuel IH]; intros buf p Hfuel; [lia|].
  cbn [DecodeFile_tracks].
  destruct (decide (length buf = 0%nat)) as [Hz|Hnz].
  { eexists. split; [done|]. intros p' err [= <- _]. lia. }
  destruct (Buffer_ReadFull buf 4) as [[err|idb] buf1] eqn:Hid.
  { eexists. split; [done|]. intros p' err' [= <- _]. lia. }
  apply Buffer_ReadFull_ok in Hid as [-> Hlen4].
  destruct buf1 as [|c buf2].
  { eexists. split; [done|]. intros p' err' [= <- _]. lia. }
  destruct (Buffer_Next buf2 _) as [[nameb buf3]|] eqn:Hname.
  2:{ eexists. split; [done|]. intros p' err' [=]. }
  apply Buffer_Next_lengths in Hname as (-> & _ & _).
  destruct (Buffer_Next buf3 16) as [[stepsb buf4]|] eqn:Hsteps.
  2:{ eexists. split; [done|]. intros p' err' [=]. }
  apply Buffer_Next_lengths in Hsteps as (-> & _ & _).
  rewrite !length_app in Hfuel. cbn [length] in Hfuel.
  rewrite !length_app in Hfuel.
  destruct (IH buf4 (addTrack p (Build_Track (to_int 32 (uint_le idb))
                                  (string_of_list_byte nameb) stepsb)))
    as (r & -> & Hbound); [lia|].
  exists r. split; [done|]. intros p' err' Hr.
  specialize (Hbound p' err' Hr). cbn [addTrack Pattern_tracks] in Hbound.
  rewrite !length_app in *. cbn [length] in *. rewrite !length_app. lia.
Qed.

(** The result of the loop does not depend on the fuel, once there is
    more of it than bytes. *)
Lemma DecodeFile_tracks_fuel fuel1 : forall fuel2 buf p,
  (length buf < fuel1)%nat -> (length buf < fuel2)%nat ->
  DecodeFile_tracks fuel1 buf p = DecodeFile_tracks fuel2 buf p.
Proof.
  induction fuel1 as [|fuel1 IH]; intros fuel2 buf p H1 H2; [lia|].
  destruct fuel2 as [|fuel2]; [lia|].
  cbn [DecodeFile_tracks].
  destruct (decide (length buf = 0%nat)) as [Hz|Hnz]; [done|].
  destruct (Buffer_ReadFull buf 4) as [[err|idb] buf1] eqn:Hid; [done|].
  apply Buffer_ReadFull_ok in Hid as [-> Hlen4].
  destruct buf1 as [|c buf2]; [done|].
  destruct (Buffer_Next buf2 _) as [[nameb buf3]|] eqn:Hname; [|done].
  apply Buffer_Next_lengths in Hname as (-> & _ & _).
  destruct (Buffer_Next buf3 16) as [[stepsb buf4]|] eqn:Hsteps; [|done].
  apply Buffer_Next_lengths in Hsteps as (-> & _ & _).
  rewrite !length_app in H1, H2. cbn [length] in H1, H2.
  rewrite !length_app in H1, H2.
  apply IH; lia.
Qed.

Lemma SPLICE_length prtclb :
  "SPLICE" = string_of_list_byte prtclb -> length prtclb = 6%nat.
Proof.
  intros Heq. apply (f_equal list_byte_of_string) in Heq.
  rewrite list_byte_of_string_of_list_byte in Heq. now subst.
Qed.

(** X12.  [DecodeFile] ends on every file: the track loop uses up at
    least five bytes for every track it adds.  A pattern it returns, with
    or without an error, comes from a file of at least 50 bytes plus five
    for each of its tracks. *)
Theorem DecodeFile_ends (fs : FileSys) (path : string) :
  exists r,
    DecodeFile fs path = Some r /\
    forall content p err,
      fs path = inr (inr content) ->
      r = Returns (Some p, err) ->
      (50 + 5 * length (Pattern_tracks p) <= length content)%nat.
Proof.
  unfold DecodeFile.
  destruct (fs path) as [oerr|[rerr|content]].
  { eexists. split; [done|]. intros ? ? ? [=]. }
  { eexists. split; [done|]. intros ? ? ? _ [=]. }
  unfold DecodeFile_content.
  destruct (Buffer_Next content 6) as [[prtclb buf]|] eqn:Hmagic.
  2:{ eexists. split; [done|]. intros ? ? ? _ [=]. }
  apply Buffer_Next_lengths in Hmagic as (Hcontent & _ & _).
  destruct (decide ("SPLICE" <> string_of_list_byte prtclb)) as [|Hsplice].
  { eexists. split; [done|]. intros ? ? ? _ [=]. }
  assert (length prtclb = 6%nat) as Hsix.
  { apply SPLICE_length.
    destruct (decide ("SPLICE" = string_of_list_byte prtclb)); done. }
  destruct (Buffer_ReadFull buf 8) as [[err|lengthb] buf1] eqn:Hlen.
  { eexists. split; [done|]. intros ? ? ? _ [=]. }
  apply Buffer_ReadFull_ok in Hlen as [Hbuf Hlen8].
  destruct (Buffer_Next buf1 _) as [[body rest]|] eqn:Hbody.
  2:{ eexists. split; [done|]. intros ? ? ? _ [=]. }
  apply Buffer_Next_lengths in Hbody as (Hbuf1 & _ & _).
  destruct (Buffer_Next body 32) as [[versionb buf2]|] eqn:Hver.
  2:{ eexists. split; [done|]. intros ? ? ? _ [=]. }
  apply Buffer_Next_lengths in Hver as (Hbody & _ & Hver).
  destruct (Buffer_ReadFull buf2 4) as [[err|tempob] buf3] eqn:Htempo.
  { eexists. split; [done|]. intros ? ? ? _ [=]. }
  apply Buffer_ReadFull_ok in Htempo as [Hbuf2 Hlen4].
  destruct (DecodeFile_tracks_ends (S (length buf3)) buf3
              (Build_Pattern (string_of_list_byte (TrimRight_NUL versionb))
                             (uint_le tempob) [])) as (r & Hr & Hbound);
    [lia|].
  exists r. split; [exact Hr|].
  intros content' p err [= <-] Hret.
  specialize (Hbound p err Hret). cbn [Pattern_tracks length] in Hbound.
  subst content buf buf1 body buf2.
  rewrite !length_app in *. lia.
Qed.

(** The loop reads whole tracks one after the other. *)
Lemma DecodeFile_tracks_layout raws : forall fuel rest p,
  Forall track_whole raws ->
  (length (flat_map track_layout raws ++ rest) < fuel)%nat ->
  DecodeFile_tracks fuel (flat_map track_layout raws ++ rest) p =
  DecodeFile_tracks fuel rest
    (Build_Pattern (Pattern_version p) (Pattern_tempo p)
                   (Pattern_tracks p ++ map track_value raws)).
Proof.
  induction raws as [|t raws IH]; intros fuel rest p Hwhole Hfuel.
  { cbn [flat_map map app]. rewrite app_nil_r. now destruct p. }
  apply Forall_cons in Hwhole as [(Hid & Hlen & Hsteps) Hwhole].
  destruct fuel as [|fuel]; [lia|].
  cbn [flat_map] in *. unfold track_layout at 1 in Hfuel.
  unfold track_layout at 1.
  rewrite <- !app_assoc in *. cbn [app] in *. rewrite <- !app_assoc in *.
  rewrite !length_app in Hfuel. cbn [length] in Hfuel.
  rewrite !length_app in Hfuel.
  etransitivity; [|apply (DecodeFile_tracks_fuel fuel (S fuel)); lia].
  cbn [DecodeFile_tracks].
  rewrite decide_False by (rewrite length_app; lia).
  rewrite Buffer_ReadFull_app by (done || lia).
  rewrite Buffer_Next_app by (rewrite Hlen; lia).
  rewrite Buffer_Next_app by (rewrite Hsteps; done).
  rewrite IH by (done || rewrite length_app; lia).
  cbn [addTrack Pattern_version Pattern_tempo Pattern_tracks map].
  rewrite <- app_assoc. reflexivity.
Qed.

(** The head of the file, for a content laid out in full up to the
    tracks: what is left to the loop is [tracksb], and anything after the
    declared length is not looked at. *)
Lemma DecodeFile_header lengthb versionb tempob tracksb trailing :
  length lengthb = 8%nat ->
  to_int 64 (uint_be lengthb)
    = Z.of_nat (length (versionb ++ tempob ++ tracksb)) ->
  length versionb = 32%nat -> length tempob = 4%nat ->
  DecodeFile_content
    (SPLICE ++ lengthb ++ (versionb ++ tempob ++ tracksb) ++ trailing) =
  DecodeFile_tracks (S (length tracksb)) tracksb
    (Build_Pattern (string_of_list_byte (TrimRight_NUL versionb))
                   (uint_le tempob) []).
Proof.
  intros Hlen8 Hdeclared Hver Htempo. unfold DecodeFile_content.
  rewrite (Buffer_Next_app SPLICE) by reflexivity.
  rewrite decide_False by (intros Hne; now apply Hne).
  rewrite Buffer_ReadFull_app by (done || lia).
  rewrite Hdeclared, Buffer_Next_app by done.
  rewrite Buffer_Next_app by (now rewrite Hver).
  now rewrite Buffer_ReadFull_app by (done || lia).
Qed.

Lemma DecodeFile_tracks_pattern fuel : forall buf p r,
  DecodeFile_tracks fuel buf p = Some (Returns r) -> r.1 <> None.
Proof.
  induction fuel as [|fuel IH]; intros buf p r; cbn [DecodeFile_tracks].
  { destruct (decide _); [|done]. now intros [= <-]. }
  destruct (decide _); [now intros [= <-]|].
  destruct (Buffer_ReadFull buf 4) as [[err|idb] buf1]; [now intros [= <-]|].
  destruct buf1 as [|c buf2]; [now intros [= <-]|].
  destruct (Buffer_Next buf2 _) as [[nameb buf3]|]; [|done].
  destruct (Buffer_Next buf3 16) as [[stepsb buf4]|]; [|done].
  apply IH.
Qed.

Lemma Buffer_ReadFull_err buf k err rest :
  Buffer_ReadFull buf k = (inl err, rest) ->
  err = io_EOF \/ err = io_ErrUnexpectedEOF.
Proof.
  unfold Buffer_ReadFull. repeat case_decide; intros [= <- _]; auto.
Qed.

(** X13.  [DecodeFile] answers with the error [want SPLICE, got ...] and
    no pattern exactly when the first six bytes of the file (or all of it,
    when it is shorter) are not [SPLICE]; the error quotes those bytes. *)
Theorem DecodeFile_bad_magic (fs : FileSys) path content :
  fs path = inr (inr content) ->
  DecodeFile fs path
    = Some (Returns (None,
              Some (Errorf ("want SPLICE, got "
                            +:+ string_of_list_byte (take 6 content)))))
  <-> take 6 content <> SPLICE.
Proof.
  intros Hfs. unfold DecodeFile. rewrite Hfs. unfold DecodeFile_content.
  rewrite Buffer_Next_nonneg by lia. change (Z.to_nat 6) with 6%nat.
  destruct (decide ("SPLICE" <> string_of_list_byte (take 6 content)))
    as [Hbad|Hgood].
  - split; [|done]. intros _ Heq. apply Hbad. now rewrite Heq.
  - assert (take 6 content = SPLICE) as Hmagic.
    { destruct (decide ("SPLICE" = string_of_list_byte (take 6 content)))
        as [Heq|]; [|done].
      apply (f_equal list_byte_of_string) in Heq.
      now rewrite list_byte_of_string_of_list_byte in Heq. }
    split; [|done]. intros Hrun. exfalso.
    destruct (Buffer_ReadFull _ 8) as [[err|lengthb] buf1] eqn:Hlen.
    { apply Buffer_ReadFull_err in Hlen as [->| ->]; discriminate Hrun. }
    destruct (Buffer_Next buf1 _) as [[body rest]|]; [|done].
    destruct (Buffer_Next body 32) as [[versionb buf2]|]; [|done].
    destruct (Buffer_ReadFull buf2 4) as [[err|tempob] buf3] eqn:Htempo.
    { apply Buffer_ReadFull_err in Htempo as [->| ->]; discriminate Hrun. }
    now apply DecodeFile_tracks_pattern in Hrun.
Qed.

Lemma DecodeFile_tracks_nil fuel p :
  DecodeFile_tracks fuel [] p = Some (Returns (Some p, None)).
Proof. now destruct fuel. Qed.

(** X14.  The layout [DecodeFile] accepts.  A file made of [SPLICE], eight
    bytes holding (big-endian) the length of the body, and a body of 32
    bytes of version, 4 bytes of tempo and whole tracks decodes, without
    error, to the version with its trailing NUL bytes removed, the tempo
    bits read little-endian, and the tracks in file order; whatever
    follows the declared length is ignored. *)
Theorem DecodeFile_layout (fs : FileSys) path lengthb versionb tempob raws
    trailing :
  let body := versionb ++ tempob ++ flat_map track_layout raws in
  fs path = inr (inr (SPLICE ++ lengthb ++ body ++ trailing)) ->
  length lengthb = 8%nat ->
  to_int 64 (uint_be lengthb) = Z.of_nat (length body) ->
  length versionb = 32%nat -> length tempob = 4%nat ->
  Forall track_whole raws ->
  DecodeFile fs path
  = Some (Returns
            (Some (Build_Pattern (string_of_list_byte (TrimRight_NUL versionb))
                                 (uint_le tempob) (map track_value raws)),
             None)).
Proof.
  intros body Hfs Hlen8 Hdeclared Hver Htempo Hwhole.
  unfold DecodeFile. rewrite Hfs. unfold body in *.
  rewrite DecodeFile_header by done.
  rewrite <- (app_nil_r (flat_map track_layout raws)) at 2.
  rewrite DecodeFile_tracks_layout by (done || rewrite app_nil_r; lia).
  apply DecodeFile_tracks_nil.
Qed.

(** X15.  A last track that is cut short is accepted without error.
    After whole tracks, a track with its four id bytes and its length byte
    [c] but fewer than [c + 16] bytes behind them is added with the name
    made of what is there, up to [c] bytes, and with the steps that are
    left, fewer than sixteen. *)
Theorem DecodeFile_cut_short (fs : FileSys) path lengthb versionb tempob raws
    idb c tail trailing :
  let body := versionb ++ tempob ++ flat_map track_layout raws
              ++ idb ++ c :: tail in
  let n := N.to_nat (Byte.to_N c) in
  fs path = inr (inr (SPLICE ++ lengthb ++ body ++ trailing)) ->
  length lengthb = 8%nat ->
  to_int 64 (uint_be lengthb) = Z.of_nat (length body) ->
  length versionb = 32%nat -> length tempob = 4%nat ->
  Forall track_whole raws ->
  length idb = 4%nat -> (length tail < n + 16)%nat ->
  DecodeFile fs path
  = Some (Returns
            (Some (Build_Pattern (string_of_list_byte (TrimRight_NUL versionb))
                     (uint_le tempob)
                     (map track_value raws ++
                      [Build_Track (to_int 32 (uint_le idb))
                         (string_of_list_byte (take n tail)) (drop n tail)])),
             None)) /\
  (length (drop n tail) < 16)%nat.
Proof.
  intros body n Hfs Hlen8 Hdeclared Hver Htempo Hwhole Hid Hshort.
  split; [|rewrite length_drop; lia].
  unfold DecodeFile. rewrite Hfs. unfold body in *.
  rewrite DecodeFile_header by done.
  rewrite DecodeFile_tracks_layout by (done || lia).
  cbn [DecodeFile_tracks Pattern_version Pattern_tempo Pattern_tracks app].
  rewrite decide_False by (rewrite length_app; lia).
  rewrite Buffer_ReadFull_app by (done || lia).
  rewrite Buffer_Next_nonneg by lia.
  replace (Z.to_nat (Z.of_N (Byte.to_N c))) with n by (unfold n; lia).
  rewrite Buffer_Next_nonneg by lia. change (Z.to_nat 16) with 16%nat.
  rewrite (take_ge (drop n tail)) by (rewrite length_drop; lia).
  rewrite (drop_ge (drop n tail)) by (rewrite length_drop; lia).
  now rewrite DecodeFile_tracks_nil.
Qed.

(** X16.  Stray bytes behind the last whole track are an error that comes
    with the pattern decoded so far, not with nil: one to three stray
    bytes give [io.ErrUnexpectedEOF] (no whole id), four give [io.EOF] (an
    id, and no length byte). *)
Theorem DecodeFile_stray_bytes (fs : FileSys) path lengthb versionb tempob
    raws stray trailing :
  let body := versionb ++ tempob ++ flat_map track_layout raws ++ stray in
  fs path = inr (inr (SPLICE ++ lengthb ++ body ++ trailing)) ->
  length lengthb = 8%nat ->
  to_int 64 (uint_be lengthb) = Z.of_nat (length body) ->
  length versionb = 32%nat -> length tempob = 4%nat ->
  Forall track_whole raws ->
  (1 <= length stray <= 4)%nat ->
  DecodeFile fs path
  = Some (Returns
            (Some (Build_Pattern (string_of_list_byte (TrimRight_NUL versionb))
                                 (uint_le tempob) (map track_value raws)),
             Some (if decide (length stray = 4%nat) then io_EOF
                   else io_ErrUnexpectedEOF))).
Proof.
  intros body Hfs Hlen8 Hdeclared Hver Htempo Hwhole Hstray.
  unfold DecodeFile. rewrite Hfs. unfold body in *.
  rewrite DecodeFile_header by done.
  rewrite DecodeFile_tracks_layout by (done || lia).
  cbn [DecodeFile_tracks Pattern_version Pattern_tempo Pattern_tracks app].
  rewrite decide_False by lia.
  destruct (decide (length stray = 4%nat)) as [H4|H4].
  - rewrite <- (app_nil_r stray) at 1.
    now rewrite Buffer_ReadFull_app by (done || lia).
  - unfold Buffer_ReadFull.
    rewrite decide_False by lia. rewrite decide_False by lia.
    now rewrite decide_True by lia.
Qed.

Lemma uint_be_fold bs : forall acc,
  fold_left (fun acc b => acc * 256 + Z.of_N (Byte.to_N b)) bs acc
  = acc * 256 ^ Z.of_nat (length bs) + uint_be bs /\
  0 <= uint_be bs < 256 ^ Z.of_nat (length bs).
Proof.
  unfold uint_be. induction bs as [|b bs IH]; intros acc.
  { cbn. lia. }
  cbn [fold_left length].
  destruct (IH (acc * 256 + Z.of_N (Byte.to_N b))) as [-> Hbound].
  destruct (IH (0 * 256 + Z.of_N (Byte.to_N b))) as [-> _].
  pose proof (Byte.to_N_bounded b) as Hb.
  rewrite Nat2Z.inj_succ, Z.pow_succ_r by lia.
  split; [lia|]. nia.
Qed.

(** A length field with its first byte at [0x80] or more is a negative
    [int64], and [Next] then slices with a negative bound. *)
Lemma DecodeFile_negative_panics (fs : FileSys) path b0 bs rest :
  fs path = inr (inr (SPLICE ++ (b0 :: bs) ++ rest)) ->
  length bs = 7%nat ->
  (128 <= Byte.to_N b0)%N ->
  DecodeFile fs path = Some Panics.
Proof.
  intros Hfs Hlen Hneg. unfold DecodeFile. rewrite Hfs.
  unfold DecodeFile_content.
  rewrite (Buffer_Next_app SPLICE) by reflexivity.
  rewrite decide_False by (intros Hne; now apply Hne).
  rewrite Buffer_ReadFull_app by (cbn [length]; lia).
  rewrite Buffer_Next_neg; [done|].
  unfold uint_be. cbn [fold_left].
  destruct (uint_be_fold bs (0 * 256 + Z.of_N (Byte.to_N b0))) as [-> Hbound].
  rewrite Hlen in *. change (Z.of_nat 7) with 7 in *.
  pose proof (Byte.to_N_bounded b0) as Hb.
  unfold to_int. change (2 ^ (64 - 1)) with 9223372036854775808.
  change (2 ^ 64) with 18446744073709551616.
  change (256 ^ 7) with 72057594037927936 in *.
  case_decide; lia.
Qed.

(** ** [Track.String] *)

Lemma Track_String_steps_cons i s rest tail :
  step_valid s ->
  Track_String_steps (S i) rest = Some tail ->
  Track_String_steps i (s :: rest)
  = Some ((if decide (i mod 4 = 0)%nat then "|" else "")
          +:+ String (step_char s) tail).
Proof.
  intros Hs Hrest. cbn [Track_String_steps]. rewrite Hrest.
  destruct Hs as [-> | ->]; reflexivity.
Qed.

Lemma Track_String_steps_groups groups : forall k,
  Forall (fun g => length g = 4%nat /\ Forall step_valid g) groups ->
  Track_String_steps (4 * k) (concat groups) = Some (render_groups groups).
Proof.
  induction groups as [|g groups IH]; intros k Hgroups; [done|].
  apply Forall_cons in Hgroups as [[Hlen Hvalid] Hgroups].
  destruct g as [|a [|b [|c [|d [|? ?]]]]]; try discriminate Hlen.
  apply Forall_cons in Hvalid as [Ha Hvalid].
  apply Forall_cons in Hvalid as [Hb Hvalid].
  apply Forall_cons in Hvalid as [Hc Hvalid].
  apply Forall_cons in Hvalid as [Hd _].
  cbn [concat app render_groups foldr render_group].
  specialize (IH (S k) Hgroups).
  replace (4 * S k)%nat with (S (S (S (S (4 * k))))) in IH by lia.
  rewrite (Track_String_steps_cons _ a _ _ Ha
             (Track_String_steps_cons _ b _ _ Hb
                (Track_String_steps_cons _ c _ _ Hc
                   (Track_String_steps_cons _ d _ _ Hd IH)))).
  rewrite decide_True by (rewrite Nat.mul_comm; apply Nat.Div0.mod_mul).
  assert (forall j, (0 < j < 4)%nat -> ((j + 4 * k) mod 4 <> 0)%nat) as Hmod.
  { intros j Hj. rewrite Nat.mul_comm, Nat.Div0.mod_add.
    rewrite Nat.mod_small; lia. }
  rewrite (decide_False (P := (S (4 * k) mod 4 = 0)%nat)) by (apply (Hmod 1%nat); lia).
  rewrite (decide_False (P := (S (S (4 * k)) mod 4 = 0)%nat))
    by (apply (Hmod 2%nat); lia).
  rewrite (decide_False (P := (S (S (S (4 * k))) mod 4 = 0)%nat))
    by (apply (Hmod 3%nat); lia).
  reflexivity.
Qed.

Lemma Track_String_steps_None steps : forall i,
  Track_String_steps i steps = None <-> ~ Forall step_valid steps.
Proof.
  induction steps as [|s steps IH]; intros i.
  { cbn. split; [done|]. intros Hn. exfalso. apply Hn. constructor. }
  cbn [Track_String_steps]. rewrite Forall_cons. unfold step_valid at 1.
  specialize (IH (S i)).
  destruct (decide (s = x00)) as [->|H0]; [|destruct (decide (s = x01)) as [->|H1]].
  - destruct (Track_String_steps (S i) steps) as [tail|].
    + split; [done|]. intros Hn. exfalso. apply Hn. split; [now left|].
      destruct (decide (Forall step_valid steps)) as [|Hno]; [done|].
      now apply IH in Hno.
    + split; [|done]. intros _ [_ Hall]. now apply IH.
  - destruct (Track_String_steps (S i) steps) as [tail|].
    + split; [done|]. intros Hn. exfalso. apply Hn. split; [now right|].
      destruct (decide (Forall step_valid steps)) as [|Hno]; [done|].
      now apply IH in Hno.
    + split; [|done]. intros _ [_ Hall]. now apply IH.
  - split; [|done]. intros _ [[?|?] _]; done.
Qed.

(** X18.  [Track.String] panics exactly when some step is neither 0 nor
    1; otherwise it returns. *)
Theorem Track_String_panics_iff (t : Track) :
  Track_String t = Panics <-> ~ Forall step_valid (Track_steps t).
Proof.
  unfold Track_String. rewrite <- (Track_String_steps_None _ 0%nat).
  destruct (Track_String_steps 0 (Track_steps t)); split; done.
Qed.

(** X19.  For steps that come in groups of four, each 0 or 1,
    [Track.String] returns the id in decimal between parentheses, a space,
    the name, a tab, and then for each group a bar followed by the
    group's four characters ([x] for 1, [-] for 0), closed by a last
    bar. *)
Theorem Track_String_groups (t : Track) (groups : list bytes) :
  Track_steps t = concat groups ->
  Forall (fun g => length g = 4%nat /\ Forall step_valid g) groups ->
  Track_String t =
  Returns ("(" +:+ pretty (Track_id t) +:+ ") " +:+ Track_name t
           +:+ String "009"%char "" +:+ render_groups groups +:+ "|").
Proof.
  intros Hsteps Hgroups. unfold Track_String. rewrite Hsteps.
  pose proof (Track_String_steps_groups groups 0%nat Hgroups) as Hrender.
  change (4 * 0)%nat with 0%nat in Hrender. now rewrite Hrender.
Qed.

(** ** Invariants of the decoded pattern *)

Lemma uint_le_bound bs : 0 <= uint_le bs < 256 ^ Z.of_nat (length bs).
Proof.
  unfold uint_le. rewrite <- length_rev.
  destruct (uint_be_fold (rev bs) 0) as [_ Hbound]. exact Hbound.
Qed.

Lemma to_int32_bound bs :
  length bs = 4%nat -> - 2 ^ 31 <= to_int 32 (uint_le bs) < 2 ^ 31.
Proof.
  intros Hlen. pose proof (uint_le_bound bs) as Hb. rewrite Hlen in Hb.
  change (256 ^ Z.of_nat 4) with 4294967296 in Hb.
  unfold to_int. change (2 ^ (32 - 1)) with 2147483648.
  change (2 ^ 32) with 4294967296. change (2 ^ 31) with 2147483648.
  case_decide; lia.
Qed.

(** What the loop returns extends the pattern it was given: same version
    and tempo, the old tracks first; the new tracks are bounded, and each
    of them but the last has all its sixteen steps. *)
Lemma DecodeFile_tracks_extends fuel : forall buf p q err,
  DecodeFile_tracks fuel buf p = Some (Returns (q, err)) ->
  exists p' new,
    q = Some p' /\
    Pattern_version p' = Pattern_version p /\
    Pattern_tempo p' = Pattern_tempo p /\
    Pattern_tracks p' = Pattern_tracks p ++ new /\
    Forall track_bounded new /\
    (forall i t, new !! i = Some t -> (S i < length new)%nat ->
                 length (Track_steps t) = 16%nat).
Proof.
  assert (forall p (e q : option _) (err : option error),
            Some (Returns (Some p, e)) = Some (Returns (q, err)) ->
            exists p' new,
              q = Some p' /\ Pattern_version p' = Pattern_version p /\
              Pattern_tempo p' = Pattern_tempo p /\
              Pattern_tracks p' = Pattern_tracks p ++ new /\
              Forall track_bounded new /\
              (forall i t, new !! i = Some t -> (S i < length new)%nat ->
                           length (Track_steps t) = 16%nat)) as Hstop.
  { intros p e q err [= <- _]. exists p, []. rewrite app_nil_r.
    repeat split; done. }
  induction fuel as [|fuel IH]; intros buf p q err; cbn [DecodeFile_tracks].
  { destruct (decide _); [|done]. intros Hr. eapply Hstop, Hr. }
  destruct (decide _) as [|Hnz]; [intros Hr; eapply Hstop, Hr|].
  destruct (Buffer_ReadFull buf 4) as [[e|idb] buf1] eqn:Hid.
  { intros Hr. eapply Hstop, Hr. }
  apply Buffer_ReadFull_ok in Hid as [-> Hlen4].
  destruct buf1 as [|c buf2]; [intros Hr; eapply Hstop, Hr|].
  destruct (Buffer_Next buf2 _) as [[nameb buf3]|] eqn:Hname; [|done].
  apply Buffer_Next_lengths in Hname as (-> & _ & Hnamelen).
  destruct (Buffer_Next buf3 16) as [[stepsb buf4]|] eqn:Hsteps; [|done].
  apply Buffer_Next_lengths in Hsteps as (-> & _ & Hstepslen).
  change (Z.to_nat 16) with 16%nat in Hstepslen.
  intros Hrun. pose proof Hrun as Hrun'.
  apply IH in Hrun as (p' & new & -> & Hv & Ht & Htracks & Hbounded & Hfull).
  cbn [addTrack Pattern_version Pattern_tempo Pattern_tracks] in *.
  set (t := Build_Track (to_int 32 (uint_le idb))
                        (string_of_list_byte nameb) stepsb) in *.
  exists p', (t :: new). rewrite <- app_assoc in Htracks.
  repeat split; try done.
  - apply Forall_cons. split; [|done]. unfold track_bounded, t.
    cbn [Track_id Track_name Track_steps].
    rewrite list_byte_of_string_of_list_byte.
    split; [now apply to_int32_bound|].
    pose proof (Byte.to_N_bounded c). lia.
  - intros [|i] t' Hi Hlast; cbn in Hi.
    + injection Hi as <-. cbn [Track_steps t].
      destruct (decide (length stepsb = 16%nat)) as [|Hshort]; [done|].
      exfalso. rewrite length_app in Hstepslen.
      assert (buf4 = []) as -> by (apply length_zero_iff_nil; lia).
      rewrite DecodeFile_tracks_nil in Hrun'. injection Hrun' as <- _.
      cbn [addTrack Pattern_tracks] in Htracks.
      apply app_inv_head in Htracks. cbn in Htracks.
      injection Htracks as <-. cbn in Hlast. lia.
    + apply (Hfull i t' Hi). cbn in Hlast. lia.
Qed.

(** The loop itself never panics: the length of a name comes from a
    byte, so it is not negative. *)
Lemma DecodeFile_tracks_no_panic fuel : forall buf p,
  DecodeFile_tracks fuel buf p <> Some Panics.
Proof.
  induction fuel as [|fuel IH]; intros buf p; cbn [DecodeFile_tracks].
  { now destruct (decide _). }
  destruct (decide _); [done|].
  destruct (Buffer_ReadFull buf 4) as [[e|idb] buf1]; [done|].
  destruct buf1 as [|c buf2]; [done|].
  rewrite Buffer_Next_nonneg by lia.
  rewrite Buffer_Next_nonneg by lia. apply IH.
Qed.

(** X17.  [DecodeFile] panics in one case only: the file starts with
    [SPLICE] and the first of the eight length bytes that follow is
    [0x80] or more, that is, the declared length is a negative [int64].
    On every other file it returns. *)
Theorem DecodeFile_panics_iff (fs : FileSys) path :
  DecodeFile fs path = Some Panics <->
  exists b0 bs rest,
    fs path = inr (inr (SPLICE ++ (b0 :: bs) ++ rest)) /\
    length bs = 7%nat /\ (128 <= Byte.to_N b0)%N.
Proof.
  split.
  2:{ intros (b0 & bs & rest & Hfs & Hlen & Hneg).
      now apply (DecodeFile_negative_panics fs path b0 bs rest). }
  unfold DecodeFile.
  destruct (fs path) as [oerr|[rerr|content]]; [done..|].
  unfold DecodeFile_content.
  rewrite Buffer_Next_nonneg by lia. change (Z.to_nat 6) with 6%nat.
  destruct (decide ("SPLICE" <> string_of_list_byte (take 6 content)))
    as [|Hgood]; [done|].
  assert (take 6 content = SPLICE) as Hmagic.
  { destruct (decide ("SPLICE" = string_of_list_byte (take 6 content)))
      as [Heq|]; [|done].
    apply (f_equal list_byte_of_string) in Heq.
    now rewrite list_byte_of_string_of_list_byte in Heq. }
  destruct (Buffer_ReadFull _ 8) as [[err|lengthb] buf1] eqn:Hlen; [done|].
  apply Buffer_ReadFull_ok in Hlen as [Hdrop Hlen8].
  destruct (decide (to_int 64 (uint_be lengthb) < 0)) as [Hneg|Hpos].
  - intros _.
    destruct lengthb as [|b0 bs]; [discriminate Hlen8|].
    exists b0, bs, buf1. split; [|split].
    + rewrite <- (take_drop 6 content), Hmagic, Hdrop. reflexivity.
    + cbn [length] in Hlen8. lia.
    + cbn [length] in Hlen8. assert (length bs = 7%nat) as Hseven by lia.
      revert Hneg. unfold uint_be. cbn [fold_left].
      destruct (uint_be_fold bs (0 * 256 + Z.of_N (Byte.to_N b0)))
        as [-> Hbound].
      rewrite Hseven in *. change (Z.of_nat 7) with 7 in *.
      pose proof (Byte.to_N_bounded b0) as Hb.
      unfold to_int. change (2 ^ (64 - 1)) with 9223372036854775808.
      change (2 ^ 64) with 18446744073709551616.
      change (256 ^ 7) with 72057594037927936 in *.
      case_decide; lia.
  - rewrite Buffer_Next_nonneg by lia.
    rewrite Buffer_Next_nonneg by lia.
    destruct (Buffer_ReadFull _ 4) as [[err|tempob] buf3]; [done|].
    intros Hrun. now apply DecodeFile_tracks_no_panic in Hrun.
Qed.

(** X20.  What [DecodeFile] makes of the header does not depend on the
    tracks.  Once the file has [SPLICE], a length and at least 36 bytes
    of body, a pattern is returned whatever bytes follow, also next to an
    error or after no track at all; its version is the 32-byte field
    without its trailing NUL bytes and its tempo is the four bytes after
    it. *)
Theorem DecodeFile_header_fields (fs : FileSys) path lengthb versionb tempob
    tracksb trailing :
  let body := versionb ++ tempob ++ tracksb in
  fs path = inr (inr (SPLICE ++ lengthb ++ body ++ trailing)) ->
  length lengthb = 8%nat ->
  to_int 64 (uint_be lengthb) = Z.of_nat (length body) ->
  length versionb = 32%nat -> length tempob = 4%nat ->
  exists p err,
    DecodeFile fs path = Some (Returns (Some p, err)) /\
    Pattern_version p = string_of_list_byte (TrimRight_NUL versionb) /\
    Pattern_tempo p = uint_le tempob.
Proof.
  intros body Hfs Hlen8 Hdeclared Hver Htempo.
  unfold DecodeFile. rewrite Hfs. unfold body in *.
  rewrite DecodeFile_header by done.
  destruct (DecodeFile_tracks_ends (S (length tracksb)) tracksb
              (Build_Pattern (string_of_list_byte (TrimRight_NUL versionb))
                             (uint_le tempob) [])) as (r & Hr & _); [lia|].
  rewrite Hr. destruct r as [[q err]|].
  - apply DecodeFile_tracks_extends in Hr
      as (p' & new & -> & Hv & Ht & _).
    now exists p', err.
  - now apply DecodeFile_tracks_no_panic in Hr.
Qed.

(** X21.  In every pattern [DecodeFile] returns, with or without an
    error, each track has an id within [int32], a name of at most 255
    bytes and at most sixteen steps, and each track but the last has
    exactly sixteen steps. *)
Theorem DecodeFile_tracks_bounded (fs : FileSys) path p err :
  DecodeFile fs path = Some (Returns (Some p, err)) ->
  Forall track_bounded (Pattern_tracks p) /\
  (forall i t,
     Pattern_tracks p !! i = Some t ->
     (S i < length (Pattern_tracks p))%nat ->
     length (Track_steps t) = 16%nat).
Proof.
  unfold DecodeFile.
  destruct (fs path) as [oerr|[rerr|content]]; [done..|].
  unfold DecodeFile_content.
  destruct (Buffer_Next content 6) as [[prtclb buf]|]; [|done].
  destruct (decide _); [done|].
  destruct (Buffer_ReadFull buf 8) as [[e|lengthb] buf1]; [done|].
  destruct (Buffer_Next buf1 _) as [[body rest]|]; [|done].
  destruct (Buffer_Next body 32) as [[versionb buf2]|]; [|done].
  destruct (Buffer_ReadFull buf2 4) as [[e|tempob] buf3]; [done|].
  intros Hrun. apply DecodeFile_tracks_extends in Hrun
    as (p' & new & [= <-] & _ & _ & Htracks & Hbounded & Hfull).
  cbn [Pattern_tracks app] in Htracks. now rewrite Htracks.
Qed.

(** ** Sample files *)

Lemma DecodeFile_bad_magic_witness :
  DecodeFile sample_fs "notes.txt"
    = Some (Returns (None, Some (Errorf "want SPLICE, got SPLIC"))).
Proof.
  apply (DecodeFile_bad_magic sample_fs "notes.txt"
           (list_byte_of_string "SPLIC") eq_refl).
  discriminate.
Defined.

Lemma DecodeFile_layout_witness :
  DecodeFile sample_fs "kick.splice"
  = Some (Returns
            (Some (Build_Pattern "0.808-alpha" 1123024896
                     [Build_Track 0 "kick" kick_steps]),
             None)).
Proof.
  apply (DecodeFile_layout sample_fs "kick.splice" (be_length x3d)
           sample_version sample_tempo [kick_raw] [x01; x02]);
    try reflexivity.
  repeat constructor.
Defined.

Lemma DecodeFile_cut_short_witness :
  DecodeFile sample_fs "cut.splice"
  = Some (Returns
            (Some (Build_Pattern "0.808-alpha" 1123024896
                     [Build_Track 0 "kick" kick_steps;
                      Build_Track 1 "sn" []]),
             None)) /\
  (length (@nil Byte.byte) < 16)%nat.
Proof.
  apply (DecodeFile_cut_short sample_fs "cut.splice" (be_length x44)
           sample_version sample_tempo [kick_raw] [x01; x00; x00; x00] x05
           (list_byte_of_string "sn") []); try reflexivity.
  - repeat constructor.
  - cbn. lia.
Defined.

Lemma DecodeFile_stray_bytes_witness :
  DecodeFile sample_fs "stray.splice"
  = Some (Returns
            (Some (Build_Pattern "0.808-alpha" 1123024896
                     [Build_Track 0 "kick" kick_steps]),
             Some io_ErrUnexpectedEOF)).
Proof.
  apply (DecodeFile_stray_bytes sample_fs "stray.splice" (be_length x3f)
           sample_version sample_tempo [kick_raw] [x01; x02] []);
    try reflexivity.
  - repeat constructor.
  - cbn. lia.
Defined.

Lemma DecodeFile_panics_iff_witness :
  DecodeFile sample_fs "negative.splice" = Some Panics.
Proof.
  apply (DecodeFile_panics_iff sample_fs "negative.splice").
  exists xff, [x00; x00; x00; x00; x00; x00; x3d], [x01].
  split; [reflexivity|]. split; [reflexivity|]. cbn. lia.
Defined.

Lemma Track_String_groups_witness :
  Track_String (Build_Track 0 "kick" kick_steps)
  = Returns ("(0) kick" +:+ String "009"%char "" +:+ "|x---|x---|x---|x---|").
Proof.
  apply (Track_String_groups (Build_Track 0 "kick" kick_steps)
           [[x01; x00; x00; x00]; [x01; x00; x00; x00];
            [x01; x00; x00; x00]; [x01; x00; x00; x00]]).
  - reflexivity.
  - repeat first [ apply Forall_nil | apply Forall_cons; split | split
                 | reflexivity | (left; reflexivity) | (right; reflexivity) ].
Defined.

Lemma DecodeFile_header_fields_witness :
  exists p err,
    DecodeFile sample_fs "stray.splice" = Some (Returns (Some p, err)) /\
    Pattern_version p = "0.808-alpha" /\
    Pattern_tempo p = 1123024896.
Proof.
  apply (DecodeFile_header_fields sample_fs "stray.splice" (be_length x3f)
           sample_version sample_tempo
           (flat_map track_layout [kick_raw] ++ [x01; x02]) []);
    reflexivity.
Defined.

Lemma DecodeFile_tracks_bounded_witness :
  Forall track_bounded
    [Build_Track 0 "kick" kick_steps; Build_Track 1 "sn" []] /\
  (forall i t,
     [Build_Track 0 "kick" kick_steps; Build_Track 1 "sn" []] !! i = Some t ->
     (S i < 2)%nat -> length (Track_steps t) = 16%nat).
Proof.
  apply (DecodeFile_tracks_bounded sample_fs "cut.splice"
           (Build_Pattern "0.808-alpha" 1123024896
              [Build_Track 0 "kick" kick_steps; Build_Track 1 "sn" []])
           None).
  reflexivity.
Defined.
